(** * ConvI conversation normalizer: role assignment, the audio and text
    paths, and the dialogue renderer of [app/conversation_normalizer].

    Python [str] values are modelled by [string]; a character is a code
    point below 256, so the development covers transcripts whose characters
    all lie in that range.  On that range the character classes used by the
    source ([str.strip], [str.splitlines], the [\s] and [\d] classes of [re]
    and matching under [re.I]) are the finite tables written out below. *)

From Stdlib Require Import Ascii String NArith PrimFloat.
From stdpp Require Import gmap strings list fin_maps.

Local Open Scope char_scope.

(** ** Characters *)

Definition code (c : ascii) : N := N_of_ascii c.

(** [str.isspace]: what [str.strip] removes and what [\s] matches. *)
Definition is_space (c : ascii) : bool :=
  let n := code c in
  ((9 <=? n) && (n <=? 13) || (28 <=? n) && (n <=? 32)
   || (n =? 133) || (n =? 160))%N.

(** The line boundaries of [str.splitlines]: LF, VT, FF, CR, FS, GS, RS, NEL. *)
Definition is_linebreak (c : ascii) : bool :=
  let n := code c in
  ((10 <=? n) && (n <=? 13) || (28 <=? n) && (n <=? 30) || (n =? 133))%N.

(** The class [\d]. *)
Definition is_digit (c : ascii) : bool :=
  let n := code c in ((48 <=? n) && (n <=? 57))%N.

(** The class [[:\-]]. *)
Definition is_sep (c : ascii) : bool :=
  Ascii.eqb c ":" || Ascii.eqb c "-".

Definition lower (c : ascii) : ascii :=
  let n := code c in
  if ((65 <=? n) && (n <=? 90))%N then ascii_of_N (n + 32) else c.

Definition upper (c : ascii) : ascii :=
  let n := code c in
  if ((97 <=? n) && (n <=? 122))%N then ascii_of_N (n - 32) else c.

(** Equality of characters under [re.I]. *)
Definition ieq (x c : ascii) : bool := Ascii.eqb (lower c) (lower x).

Local Close Scope char_scope.

(** ** Strings *)

Definition LF : string := String "010"%char "".

Fixpoint str_map (f : ascii → ascii) (s : string) : string :=
  match s with
  | EmptyString => EmptyString
  | String c s' => String (f c) (str_map f s')
  end.

Fixpoint str_forall (p : ascii → bool) (s : string) : bool :=
  match s with
  | EmptyString => true
  | String c s' => p c && str_forall p s'
  end.

Fixpoint str_take (n : nat) (s : string) : string :=
  match n, s with
  | S n', String c s' => String c (str_take n' s')
  | _, _ => EmptyString
  end.

(** [str.upper] and [str.lower]; the source applies [upper] to the text of
    a diarized label only. *)
Definition str_upper : string → string := str_map upper.
Definition str_lower : string → string := str_map lower.

(** [str.capitalize]; the source applies it to the value of a role only. *)
Definition capitalize (s : string) : string :=
  match s with
  | EmptyString => EmptyString
  | String c s' => String (upper c) (str_lower s')
  end.

Fixpoint str_drop_while (p : ascii → bool) (s : string) : string :=
  match s with
  | EmptyString => EmptyString
  | String c s' => if p c then str_drop_while p s' else s
  end.

Definition lstrip (s : string) : string := str_drop_while is_space s.

Fixpoint rstrip (s : string) : string :=
  match s with
  | EmptyString => EmptyString
  | String c s' =>
      match rstrip s' with
      | EmptyString => if is_space c then EmptyString else String c EmptyString
      | r => String c r
      end
  end.

(** [str.strip()] *)
Definition strip (s : string) : string := rstrip (lstrip s).

(** [str.splitlines()]: a CR directly followed by LF is one boundary, and a
    boundary at the very end opens no further line. *)
Fixpoint splitlines (s : string) : list string :=
  match s with
  | EmptyString => []
  | String c s' =>
      if is_linebreak c then
        match s' with
        | String c' s'' =>
            if Ascii.eqb c "013" && Ascii.eqb c' "010"
            then EmptyString :: splitlines s''
            else EmptyString :: splitlines s'
        | EmptyString => EmptyString :: splitlines s'
        end
      else
        match splitlines s' with
        | [] => [String c EmptyString]
        | l :: ls => String c l :: ls
        end
  end.

(** [sep.join(ls)] *)
Fixpoint join (sep : string) (ls : list string) : string :=
  match ls with
  | [] => EmptyString
  | [x] => x
  | x :: xs => x +:+ sep +:+ join sep xs
  end.

Definition not_linebreak (c : ascii) : bool := negb (is_linebreak c).

(** ** Regular expressions

    The fragment of [re] that the three prefix patterns are written in,
    matched by backtracking in the order [re] tries the alternatives. *)

Inductive regex : Type :=
  | Eps
  | Chr (p : ascii → bool)
  | Star (p : ascii → bool)
  | Cat (r1 r2 : regex)
  | Alt (r1 r2 : regex).

Fixpoint lit (w : string) : regex :=
  match w with
  | EmptyString => Eps
  | String x w' => Cat (Chr (ieq x)) (lit w')
  end.

Fixpoint alts (w : string) (ws : list string) : regex :=
  match ws with
  | [] => lit w
  | w' :: ws' => Alt (lit w) (alts w' ws')
  end.

Fixpoint star_match {A} (p : ascii → bool) (s : string)
    (k : string → option A) : option A :=
  match s with
  | String c s' =>
      if p c then
        match star_match p s' k with
        | Some x => Some x
        | None => k s
        end
      else k s
  | EmptyString => k s
  end.

Fixpoint rmatch {A} (r : regex) (s : string)
    (k : string → option A) : option A :=
  match r with
  | Eps => k s
  | Chr p =>
      match s with
      | String c s' => if p c then k s' else None
      | EmptyString => None
      end
  | Star p => star_match p s k
  | Cat r1 r2 => rmatch r1 s (λ s', rmatch r2 s' k)
  | Alt r1 r2 =>
      match rmatch r1 s k with
      | Some x => Some x
      | None => rmatch r2 s k
      end
  end.

(** A pattern of the shape [^(group1)tail]. *)
Record pattern : Type := { group1 : regex; tail : regex }.

(** [pattern.match(s)]: the text of group 1 and what follows the match. *)
Definition re_match (pat : pattern) (s : string) : option (string * string) :=
  rmatch (group1 pat) s (λ s1,
    rmatch (tail pat) s1 (λ s2,
      Some (str_take (String.length s - String.length s1) s, s2))).

(** [pattern.sub("", s)]: the pattern is anchored by [^] and compiled
    without [re.M], so the only occurrence it can replace starts at 0. *)
Definition re_sub (pat : pattern) (s : string) : string :=
  match re_match pat s with
  | Some (_, rest) => rest
  | None => s
  end.

(** [\s*[:\-]\s*] *)
Definition sep_tail : regex :=
  Cat (Star is_space) (Cat (Chr is_sep) (Star is_space)).

Definition _AGENT_PREFIX : pattern :=
  {| group1 := alts "Agent" ["AGENT"; "Support"; "CSR"; "Representative"];
     tail := sep_tail |}.

Definition _CUSTOMER_PREFIX : pattern :=
  {| group1 := alts "Customer" ["CUSTOMER"; "Client"; "User"; "Caller"];
     tail := sep_tail |}.

Definition _SPEAKER_PREFIX : pattern :=
  {| group1 := Cat (lit "SPEAKER_") (Cat (Chr is_digit) (Star is_digit));
     tail := sep_tail |}.

(** What the three patterns compute, written without backtracking: the
    rest of [s] after a case-insensitive occurrence of the word [w] at its
    start, and the rest of [s] after [\s*[:\-]\s*]. *)
Fixpoint istarts (w s : string) : option string :=
  match w with
  | EmptyString => Some s
  | String x w' =>
      match s with
      | String c s' => if ieq x c then istarts w' s' else None
      | EmptyString => None
      end
  end.

Definition strip_sep (s : string) : option string :=
  match lstrip s with
  | String c s' => if is_sep c then Some (lstrip s') else None
  | EmptyString => None
  end.

Fixpoint first_success {A B} (f : A → option B) (l : list A) : option B :=
  match l with
  | [] => None
  | x :: l' =>
      match f x with
      | Some y => Some y
      | None => first_success f l'
      end
  end.

(** What [^(w)\s*[:\-]\s*] computes on [s] for one alias [w]. *)
Definition alias_match (s w : string) : option (string * string) :=
  istarts w s ≫= λ s1,
    (λ s2, (str_take (String.length s - String.length s1) s, s2))
      <$> strip_sep s1.

(** What [_SPEAKER_PREFIX] computes on [s]. *)
Definition speaker_match (s : string) : option (string * string) :=
  istarts "SPEAKER_" s ≫= λ s0,
    match s0 with
    | String d s0' =>
        if is_digit d then
          let s1 := str_drop_while is_digit s0' in
          (λ s2, (str_take (String.length s - String.length s1) s, s2))
            <$> strip_sep s1
        else None
    | EmptyString => None
    end.

(** Two words diverge when neither is the beginning of the other. *)
Definition diverge (a b : string) : bool :=
  negb (String.prefix a b) && negb (String.prefix b a).

(** ** Labelled lines

    A labelled line is a label, optional white space, a colon or a hyphen,
    and a remainder. *)

Definition agent_aliases : list string :=
  ["Agent"; "AGENT"; "Support"; "CSR"; "Representative"].

Definition customer_aliases : list string :=
  ["Customer"; "CUSTOMER"; "Client"; "User"; "Caller"].

(** Any two words of the two lists are equal up to case or diverge, and
    any two words of the two lists diverge. *)
Definition aliases_apart (l1 l2 : list string) : bool :=
  forallb (λ w1, forallb (λ w2,
    bool_decide (str_lower w1 = str_lower w2)
    || diverge (str_lower w1) (str_lower w2)) l2) l1.

Definition aliases_disjoint (l1 l2 : list string) : bool :=
  forallb (λ w1, forallb (λ w2, diverge (str_lower w1) (str_lower w2)) l2) l1.

(** [lbl] is one of [aliases], up to the case of its letters. *)
Definition is_alias (aliases : list string) (lbl : string) : bool :=
  bool_decide (str_lower lbl ∈ (str_lower <$> aliases)).

(** [lbl] is SPEAKER_ (in any case) followed by one digit or more. *)
Definition is_diarized_label (lbl : string) : bool :=
  match istarts "SPEAKER_" lbl with
  | Some ds => negb (bool_decide (ds = "")) && str_forall is_digit ds
  | None => false
  end.

Definition labelled_line (lbl ws : string) (c : ascii) (rest : string)
    : string :=
  lbl +:+ ws +:+ String c rest.

(** ** Data model *)

(** Modelled from the spec: [app.schemas.Role], an enumeration over agent,
    customer and unknown whose values are the lower-case names. *)
Inductive Role : Type := agent | customer | unknown.

Definition Role_value (r : Role) : string :=
  match r with
  | agent => "agent"
  | customer => "customer"
  | unknown => "unknown"
  end.

Global Instance Role_eq_dec : EqDecision Role.
Proof. solve_decision. Defined.

(** Modelled from the spec: [app.speech_pipeline.schemas.SpeechSegment],
    with the fields the normalizer reads. *)
Record SpeechSegment : Type := {
  seg_speaker_id : string;
  seg_original_text : string;
  seg_language : string;
  seg_emotion : option string;
  seg_start_time : float;
  seg_end_time : float
}.

(** Modelled from the spec: [app.schemas.ConversationTurn], with the fields
    the normalizer writes. *)
Record ConversationTurn : Type := {
  speaker_id : string;
  role : Role;
  original_text : string;
  normalized_text_en : string;
  language : string;
  emotion : option string;
  start_time : option float;
  end_time : option float
}.

(** ** Role assignment *)

Definition enumerate {A} (l : list A) : list (nat * A) := imap pair l.

(** The body of the first loop: [speakers_seen] grows by an identifier
    it does not hold yet. *)
Definition see_speaker (seen : list string) (seg : SpeechSegment)
    : list string :=
  if decide (seg_speaker_id seg ∈ seen) then seen
  else seen ++ [seg_speaker_id seg].

Definition speakers_seen (segments : list SpeechSegment) : list string :=
  fold_left see_speaker segments [].

(** The body of the second loop, over [enumerate(speakers_seen)]. *)
Definition put_role (role_map : gmap string Role) (p : nat * string)
    : gmap string Role :=
  let '(i, spk) := p in
  <[spk := if i =? 0 then agent else customer]> role_map.

Definition _assign_roles_from_speakers (segments : list SpeechSegment)
    : gmap string Role :=
  fold_left put_role (enumerate (speakers_seen segments)) ∅.

(** ** Audio path *)

Definition speech_turn (role_map : gmap string Role) (seg : SpeechSegment)
    : ConversationTurn :=
  let role := default unknown (role_map !! seg_speaker_id seg) in
  let normalized_en := seg_original_text seg in
  {| speaker_id := seg_speaker_id seg;
     role := role;
     original_text := seg_original_text seg;
     normalized_text_en := normalized_en;
     language := seg_language seg;
     emotion := seg_emotion seg;
     start_time := Some (seg_start_time seg);
     end_time := Some (seg_end_time seg) |}.

Definition normalize_from_speech (segments : list SpeechSegment)
    : list ConversationTurn :=
  match segments with
  | [] => []
  | _ =>
      let role_map := _assign_roles_from_speakers segments in
      fold_left (λ turns seg, turns ++ [speech_turn role_map seg]) segments []
  end.

(** ** Text path *)

(** The list comprehension that opens [normalize_from_text]. *)
Definition transcript_lines (transcript : string) : list string :=
  omap (λ l, if decide (strip l = "") then None else Some (strip l))
       (splitlines (strip transcript)).

(** The classification of one line: speaker identifier, role and text. *)
Definition classify (i : nat) (line : string) : string * Role * string :=
  match re_match _AGENT_PREFIX line with
  | Some _ => ("AGENT", agent, strip (re_sub _AGENT_PREFIX line))
  | None =>
      match re_match _CUSTOMER_PREFIX line with
      | Some _ => ("CUSTOMER", customer, strip (re_sub _CUSTOMER_PREFIX line))
      | None =>
          match re_match _SPEAKER_PREFIX line with
          | Some (g1, _) =>
              let spk := str_upper g1 in
              (spk,
               if decide (spk = "SPEAKER_00") then agent else customer,
               strip (re_sub _SPEAKER_PREFIX line))
          | None =>
              let r := if i mod 2 =? 0 then agent else customer in
              (if decide (r = agent) then "AGENT" else "CUSTOMER", r, line)
          end
      end
  end.

(** One round of the loop: [None] is the [continue] on empty text. *)
Definition line_turn (lang : string) (i : nat) (line : string)
    : option ConversationTurn :=
  let '(spk, r, text) := classify i line in
  if decide (text = "") then None
  else Some {| speaker_id := spk;
               role := r;
               original_text := text;
               normalized_text_en := text;
               language := lang;
               emotion := None;
               start_time := None;
               end_time := None |}.

Fixpoint text_loop (lang : string) (i : nat) (lines : list string)
    (turns : list ConversationTurn) : list ConversationTurn :=
  match lines with
  | [] => turns
  | line :: rest =>
      match line_turn lang i line with
      | None => text_loop lang (S i) rest turns
      | Some t => text_loop lang (S i) rest (turns ++ [t])
      end
  end.

Definition normalize_from_text (transcript : string) (lang : string)
    : list ConversationTurn :=
  text_loop lang 0 (transcript_lines transcript) [].

(** The text a line is left with, which does not depend on its position,
    and the turn of an unlabelled line at position [i]. *)
Definition line_text (line : string) : string := (classify 0 line).2.

Definition no_pattern_matches (line : string) : Prop :=
  re_match _AGENT_PREFIX line = None
  ∧ re_match _CUSTOMER_PREFIX line = None
  ∧ re_match _SPEAKER_PREFIX line = None.

(** A line carries a recognized label when it is a labelled line whose
    label is an agent-side alias, a customer-side alias or a diarized
    label; it is unlabelled otherwise. *)
Definition recognized_label (lbl : string) : bool :=
  is_alias agent_aliases lbl || is_alias customer_aliases lbl
  || is_diarized_label lbl.

Definition has_label (line : string) : Prop :=
  ∃ lbl ws c rest,
    line = labelled_line lbl ws c rest ∧ recognized_label lbl = true
    ∧ str_forall is_space ws = true ∧ is_sep c = true.

Definition unlabelled (line : string) : Prop := ¬ has_label line.

Definition plain_turn (lang : string) (i : nat) (line : string)
    : ConversationTurn :=
  {| speaker_id := if i mod 2 =? 0 then "AGENT" else "CUSTOMER";
     role := if i mod 2 =? 0 then agent else customer;
     original_text := line;
     normalized_text_en := line;
     language := lang;
     emotion := None;
     start_time := None;
     end_time := None |}.

(** The turn of a labelled line. *)
Definition text_turn (lang spk : string) (r : Role) (text : string)
    : ConversationTurn :=
  {| speaker_id := spk; role := r; original_text := text;
     normalized_text_en := text; language := lang; emotion := None;
     start_time := None; end_time := None |}.

(** The rule the specification words for diarized labels: the label that
    comes first in lexicographic order among the diarized labels of the
    transcript is the agent, every other one a customer. *)
Definition diarized_labels (transcript : string) : list string :=
  omap (λ line, (λ m, str_upper m.1) <$> re_match _SPEAKER_PREFIX line)
       (transcript_lines transcript).

Definition lexically_first (labels : list string) : option string :=
  foldr (λ l acc,
           match acc with
           | None => Some l
           | Some m => if String.leb l m then Some l else Some m
           end) None labels.

Definition spec_diarized_role (transcript spk : string) : Role :=
  if decide (lexically_first (diarized_labels transcript) = Some spk)
  then agent else customer.

(** ** Dialogue renderer *)

Definition emotion_tag (t : ConversationTurn) : string :=
  match emotion t with
  | Some e => if decide (e = "") then "" else " [" +:+ e +:+ "]"
  | None => ""
  end.

Definition dialogue_line (t : ConversationTurn) : string :=
  let role_label := capitalize (Role_value (role t)) in
  role_label +:+ emotion_tag t +:+ ": " +:+ normalized_text_en t.

Definition turns_to_dialogue_string (turns : list ConversationTurn) : string :=
  join LF (fold_left (λ lines t, lines ++ [dialogue_line t]) turns []).

(** ** Lines and line separators *)

Definition CR : string := String "013"%char "".
Definition CRLF : string := String "013"%char LF.

(** A clean line is not empty, has no white space at either end and holds
    no line boundary. *)
Definition clean_line (l : string) : Prop :=
  l ≠ "" ∧ strip l = l ∧ str_forall not_linebreak l = true.

(** One line boundary of [str.splitlines]: a single boundary character, or
    CR followed by LF. *)
Definition is_line_sep (sep : string) : Prop :=
  (∃ b, sep = String b "" ∧ is_linebreak b = true) ∨ sep = CRLF.

(** ** The text path in the words of the specification

    The definitions of this part follow the specification, not the source:
    they say which lines of a transcript count, what text a line yields
    and which turn it gives, and the properties below compare the parser
    with them.

    A line is blank when all its characters are white space.  The
    non-blank lines of a transcript are the lines of the transcript as it
    is given, without the blank ones, each without the white space at its
    ends. *)
Definition is_blank (l : string) : bool := str_forall is_space l.

Definition nonblank_lines (transcript : string) : list string :=
  strip <$> filter (λ l, is_blank l = false) (splitlines transcript).

(** The text that a line is left with once its prefix is removed: for a
    line that is a recognized label, optional white space, a colon or a
    hyphen, and a remainder, the remainder without the white space at its
    ends; for an unlabelled line, the line itself. *)
Definition prefix_stripped (line text : string) : Prop :=
  (∃ lbl ws c rest,
     line = labelled_line lbl ws c rest ∧ recognized_label lbl = true
     ∧ str_forall is_space ws = true ∧ is_sep c = true
     ∧ text = strip rest)
  ∨ (unlabelled line ∧ text = line).

(** A line yields text when that text is not empty. *)
Definition yields_text (line : string) : Prop :=
  ∃ text, prefix_stripped line text ∧ text ≠ "".

(** [count_where P l n]: [n] elements of [l] satisfy [P]. *)
Inductive count_where {A} (P : A → Prop) : list A → nat → Prop :=
  | count_nil : count_where P [] 0
  | count_yes x l n : P x → count_where P l n → count_where P (x :: l) (S n)
  | count_no x l n : ¬ P x → count_where P l n → count_where P (x :: l) n.

(** The turn that the specification gives a line at position [i]: for a
    labelled line the turn of its label with the stripped remainder as
    text, for an unlabelled line the turn of its position. *)
Definition labelled_turn (lang lbl text : string) (t : ConversationTurn)
    : Prop :=
  (is_alias agent_aliases lbl = true ∧ t = text_turn lang "AGENT" agent text)
  ∨ (is_alias customer_aliases lbl = true
     ∧ t = text_turn lang "CUSTOMER" customer text)
  ∨ (is_diarized_label lbl = true
     ∧ t = text_turn lang (str_upper lbl)
             (if decide (str_upper lbl = "SPEAKER_00") then agent else customer)
             text).

Definition turn_of_line (lang : string) (i : nat) (line : string)
    (t : ConversationTurn) : Prop :=
  (∃ lbl ws c rest,
     line = labelled_line lbl ws c rest
     ∧ str_forall is_space ws = true ∧ is_sep c = true
     ∧ labelled_turn lang lbl (strip rest) t)
  ∨ (unlabelled line ∧ t = plain_turn lang i line).

(** [parsed lang i lines turns]: [turns] are, in order, the turns of the
    lines that yield text, the first line standing at position [i]; a line
    whose text is empty gives no turn and keeps its position. *)
Inductive parsed (lang : string)
    : nat → list string → list ConversationTurn → Prop :=
  | parsed_nil i : parsed lang i [] []
  | parsed_drop i line lines turns :
      prefix_stripped line "" → parsed lang (S i) lines turns →
      parsed lang i (line :: lines) turns
  | parsed_keep i line lines t turns :
      turn_of_line lang i line t → original_text t ≠ "" →
      parsed lang (S i) lines turns →
      parsed lang i (line :: lines) (t :: turns).

Definition spaced_transcript : string :=
  "a" +:+ LF +:+ "   " +:+ LF +:+ " b ".

(** ** The caller in [test_pipeline.py]

    [query = " ".join(t.normalized_text_en for t in turns)[:500]] *)
Definition retrieval_query (turns : list ConversationTurn) : string :=
  str_take 500 (join " " (normalized_text_en <$> turns)).

(** The speaker of a turn read back from a rendered dialogue. *)
Definition role_speaker (r : Role) : string :=
  match r with agent => "AGENT" | _ => "CUSTOMER" end.

Definition with_language (lang : string) (t : ConversationTurn)
    : ConversationTurn :=
  {| speaker_id := speaker_id t; role := role t;
     original_text := original_text t;
     normalized_text_en := normalized_text_en t; language := lang;
     emotion := emotion t; start_time := start_time t;
     end_time := end_time t |}.

(** ** Sample inputs *)

(** The scenario of the specification: the identifiers SPEAKER_01,
    SPEAKER_00, SPEAKER_01 in that order. *)
Definition scenario_segment (spk text lang : string) (t0 t1 : float)
    : SpeechSegment :=
  {| seg_speaker_id := spk; seg_original_text := text; seg_language := lang;
     seg_emotion := None; seg_start_time := t0; seg_end_time := t1 |}.

Definition scenario_segments : list SpeechSegment :=
  [scenario_segment "SPEAKER_01" "Hello, ConvI Bank." "en" 0 1.5;
   scenario_segment "SPEAKER_00" "Hola, tengo un problema." "es" 1.5 3;
   scenario_segment "SPEAKER_01" "How can I help?" "en" 3 4.25].

Definition labelled_transcript : string :=
  "Agent: Thank you for calling." +:+ LF +:+ "Customer- hi".

Definition plain_transcript : string :=
  "good morning" +:+ LF +:+ LF +:+ "hello there" +:+ LF +:+ "how can I help".

Definition diarized_transcript : string :=
  "SPEAKER_01: hello" +:+ LF +:+ "speaker_02 - hi".

Definition blank_transcript : string := "   " +:+ LF +:+ LF +:+ "  ".

Definition bank_transcript : string :=
  "Agent: Thank you for calling ConvI Bank. How can I help you today?"
  +:+ LF +:+
  "Customer: There is an unauthorized transaction of 5000 rupees on my account.".

Definition dropped_line_transcript : string :=
  "Agent:" +:+ LF +:+ "hello" +:+ LF +:+ "goodbye".

Definition angry_turn : ConversationTurn :=
  {| speaker_id := "SPEAKER_01"; role := customer;
     original_text := "This is fraud!"; normalized_text_en := "This is fraud!";
     language := "en"; emotion := Some "angry";
     start_time := Some 2.5%float; end_time := Some 4%float |}.

(** * Properties *)

(** Membership in a list that is written out. *)
Ltac in_list :=
  repeat first [ apply elem_of_cons; left; reflexivity
               | apply elem_of_cons; right ].

(** ** Strings *)

Lemma str_app_cons (c : ascii) (s t : string) :
  String c s +:+ t = String c (s +:+ t).
Proof. reflexivity. Qed.

Lemma str_app_assoc (s t u : string) : (s +:+ t) +:+ u = s +:+ t +:+ u.
Proof. induction s as [|c s IH]; [done|]. by rewrite !str_app_cons, IH. Qed.

Lemma str_length_app (s t : string) :
  String.length (s +:+ t) = String.length s + String.length t.
Proof. induction s as [|c s IH]; [done|]. rewrite str_app_cons. simpl. by rewrite IH. Qed.

Lemma str_forall_app p (s t : string) :
  str_forall p (s +:+ t) = str_forall p s && str_forall p t.
Proof.
  induction s as [|c s IH]; [done|]. rewrite str_app_cons. simpl.
  by rewrite IH, andb_assoc.
Qed.

Lemma str_take_app (s t : string) : str_take (String.length s) (s +:+ t) = s.
Proof. induction s as [|c s IH]; [by destruct t|]. rewrite str_app_cons. simpl. by rewrite IH. Qed.

Lemma str_drop_while_forall p q (s : string) :
  str_forall q s = true → str_forall q (str_drop_while p s) = true.
Proof.
  induction s as [|c s IH]; [done|]. simpl. intros [Hc Hs]%andb_true_iff.
  destruct (p c); [auto|]. simpl. by rewrite Hc, Hs.
Qed.

Lemma str_drop_while_app p (s t : string) :
  str_forall p s = true → str_drop_while p (s +:+ t) = str_drop_while p t.
Proof.
  induction s as [|c s IH]; [done|]. rewrite str_app_cons. simpl.
  intros [-> Hs]%andb_true_iff. auto.
Qed.

Lemma str_drop_while_idemp p (s : string) :
  str_drop_while p (str_drop_while p s) = str_drop_while p s.
Proof.
  induction s as [|c s IH]; [done|]. simpl.
  destruct (p c) eqn:Hc; [done|]. simpl. by rewrite Hc.
Qed.

(** What [str_drop_while] removes is a run of characters of the class. *)
Lemma str_drop_while_split p (s : string) :
  ∃ run, s = run +:+ str_drop_while p s ∧ str_forall p run = true.
Proof.
  induction s as [|c s (run & IH & Hrun)]; [by exists ""|]. simpl.
  destruct (p c) eqn:Hc.
  - exists (String c run). rewrite str_app_cons, <- IH. simpl. by rewrite Hc, Hrun.
  - by exists "".
Qed.

Lemma rstrip_forall q (s : string) :
  str_forall q s = true → str_forall q (rstrip s) = true.
Proof.
  induction s as [|c s IH]; [done|]. simpl. intros [Hc Hs]%andb_true_iff.
  specialize (IH Hs). destruct (rstrip s) as [|c' r].
  - destruct (is_space c); [done|]. simpl. by rewrite Hc.
  - simpl in *. by rewrite Hc, IH.
Qed.

Lemma strip_forall q (s : string) :
  str_forall q s = true → str_forall q (strip s) = true.
Proof. intros H. by apply rstrip_forall, str_drop_while_forall. Qed.

Lemma strip_lstrip (s : string) : strip (lstrip s) = strip s.
Proof. unfold strip, lstrip. by rewrite str_drop_while_idemp. Qed.

Lemma lstrip_spaces (s : string) : str_forall is_space s = true → lstrip s = "".
Proof.
  induction s as [|c s IH]; [done|]. simpl. intros [Hc Hs]%andb_true_iff.
  unfold lstrip. simpl. rewrite Hc. by apply IH.
Qed.

Lemma strip_spaces (s : string) : str_forall is_space s = true → strip s = "".
Proof. intros H. unfold strip. by rewrite lstrip_spaces. Qed.

(** ** Character classes *)

Lemma linebreak_is_space (c : ascii) : is_linebreak c = true → is_space c = true.
Proof. destruct c as [[] [] [] [] [] [] [] []]; by vm_compute. Qed.

Lemma sep_not_space (c : ascii) : is_sep c = true → is_space c = false.
Proof. destruct c as [[] [] [] [] [] [] [] []]; by vm_compute. Qed.

Lemma sep_not_digit (c : ascii) : is_sep c = true → is_digit c = false.
Proof. destruct c as [[] [] [] [] [] [] [] []]; by vm_compute. Qed.

Lemma space_not_digit (c : ascii) : is_space c = true → is_digit c = false.
Proof. destruct c as [[] [] [] [] [] [] [] []]; by vm_compute. Qed.

Lemma ieq_lower (x c : ascii) : ieq x c = true ↔ lower c = lower x.
Proof. unfold ieq. apply Ascii.eqb_eq. Qed.

(** ** The matcher *)

Section matcher.
Context {A : Type}.
Implicit Types (k : string → option A) (s : string).

(** A greedy star hands the continuation the longest rest first; when the
    continuation accepts that rest, this is the match. *)
Lemma star_match_longest p s k x :
  k (str_drop_while p s) = Some x → star_match p s k = Some x.
Proof.
  induction s as [|c s IH]; [done|]. simpl.
  destruct (p c); [|done]. intros H. by rewrite (IH H).
Qed.

(** When the continuation refuses every string that starts with a
    character of the class, giving characters back does not help. *)
Lemma star_match_no_backtrack p s k :
  (∀ c s', p c = true → k (String c s') = None) →
  star_match p s k = k (str_drop_while p s).
Proof.
  intros Hk. induction s as [|c s IH]; [done|]. simpl.
  destruct (p c) eqn:Hc; [|done]. rewrite IH.
  destruct (k (str_drop_while p s)); [done|]. by apply Hk.
Qed.

Lemma rmatch_lit w s k : rmatch (lit w) s k = istarts w s ≫= k.
Proof.
  revert s. induction w as [|x w IH]; intros s; [done|]. simpl.
  destruct s as [|c s]; [done|]. destruct (ieq x c); [apply IH|done].
Qed.

Lemma rmatch_alts w ws s k :
  rmatch (alts w ws) s k = first_success (λ w', istarts w' s ≫= k) (w :: ws).
Proof.
  revert w. induction ws as [|w' ws IH]; intros w; simpl.
  - rewrite rmatch_lit. by destruct (istarts w s ≫= k).
  - rewrite rmatch_lit. destruct (istarts w s ≫= k); [done|]. apply IH.
Qed.

Lemma rmatch_sep_tail s (f : string → A) :
  rmatch sep_tail s (λ s2, Some (f s2)) = f <$> strip_sep s.
Proof.
  unfold sep_tail, strip_sep, lstrip. simpl.
  rewrite star_match_no_backtrack.
  - destruct (str_drop_while is_space s) as [|c s']; [done|].
    destruct (is_sep c); [|done]. simpl. by apply star_match_longest.
  - intros c s' Hc. destruct (is_sep c) eqn:Hsep; [|done].
    apply sep_not_space in Hsep. congruence.
Qed.
End matcher.

(** ** The three prefix patterns *)

Lemma first_success_ext {A B} (f g : A → option B) (l : list A) :
  (∀ x, f x = g x) → first_success f l = first_success g l.
Proof. intros H. induction l as [|x l IH]; [done|]. simpl. by rewrite H, IH. Qed.

Lemma first_success_agree {A B} (f : A → option B) (l : list A) (v : B) :
  (∀ x, x ∈ l → f x = None ∨ f x = Some v) →
  (∃ x, x ∈ l ∧ f x = Some v) →
  first_success f l = Some v.
Proof.
  induction l as [|y l IH]; intros Hall (x & Hx & Hfx).
  - by apply elem_of_nil in Hx.
  - simpl. destruct (Hall y) as [Hy|Hy]; [apply elem_of_cons; by left| |by rewrite Hy].
    rewrite Hy. apply IH.
    + intros z Hz. apply Hall, elem_of_cons. by right.
    + apply elem_of_cons in Hx as [->|Hx]; [congruence|eauto].
Qed.

Lemma first_success_none {A B} (f : A → option B) (l : list A) :
  (∀ x, x ∈ l → f x = None) → first_success f l = None.
Proof.
  induction l as [|y l IH]; intros Hall; [done|]. simpl.
  rewrite (Hall y) by (apply elem_of_cons; by left).
  apply IH. intros z Hz. apply Hall, elem_of_cons. by right.
Qed.

Lemma re_match_alts w ws s :
  re_match {| group1 := alts w ws; tail := sep_tail |} s
  = first_success (alias_match s) (w :: ws).
Proof.
  unfold re_match. cbn [group1 tail]. rewrite rmatch_alts.
  apply first_success_ext. intros w'. unfold alias_match.
  destruct (istarts w' s) as [s1|]; [|done]. cbn [mbind option_bind].
  apply rmatch_sep_tail.
Qed.

Lemma re_match_agent s :
  re_match _AGENT_PREFIX s = first_success (alias_match s) agent_aliases.
Proof. apply re_match_alts. Qed.

Lemma re_match_customer s :
  re_match _CUSTOMER_PREFIX s = first_success (alias_match s) customer_aliases.
Proof. apply re_match_alts. Qed.

Lemma strip_sep_digit d s : is_digit d = true → strip_sep (String d s) = None.
Proof.
  intros Hd. unfold strip_sep, lstrip. simpl.
  destruct (is_space d) eqn:Hsp.
  { apply space_not_digit in Hsp. congruence. }
  destruct (is_sep d) eqn:Hsep; [|done].
  apply sep_not_digit in Hsep. congruence.
Qed.

Lemma re_match_speaker s : re_match _SPEAKER_PREFIX s = speaker_match s.
Proof.
  unfold re_match, speaker_match. cbn [group1 tail _SPEAKER_PREFIX].
  cbn [rmatch]. rewrite rmatch_lit.
  destruct (istarts "SPEAKER_" s) as [s0|]; [|done]. cbn [mbind option_bind].
  destruct s0 as [|d s0']; [done|]. destruct (is_digit d); [|done].
  rewrite star_match_no_backtrack.
  - apply rmatch_sep_tail.
  - intros c s' Hc. rewrite rmatch_sep_tail. by rewrite strip_sep_digit.
Qed.

(** *** Words at the start of a line *)

Lemma istarts_app w a x :
  str_lower a = str_lower w → istarts w (a +:+ x) = Some x.
Proof.
  revert a. induction w as [|y w IH]; intros [|b a] H; try done.
  rewrite str_app_cons. cbn [istarts]. unfold str_lower in *.
  cbn [str_map] in H. injection H as Hb Ha.
  assert (ieq y b = true) as -> by by apply ieq_lower.
  by apply IH.
Qed.

Lemma istarts_inv w s s1 :
  istarts w s = Some s1 → ∃ a, s = a +:+ s1 ∧ str_lower a = str_lower w.
Proof.
  revert s. induction w as [|y w IH]; intros s; simpl.
  - intros [= ->]. by exists "".
  - destruct s as [|c s]; [done|]. destruct (ieq y c) eqn:Hc; [|done].
    intros (a & -> & Ha)%IH. exists (String c a). split; [done|].
    apply ieq_lower in Hc. unfold str_lower in *. cbn [str_map].
    by rewrite Hc, Ha.
Qed.

Lemma diverge_cons c a b : diverge (String c a) (String c b) = diverge a b.
Proof. unfold diverge. simpl. by destruct (ascii_dec c c). Qed.

Lemma istarts_diverge w lbl x :
  diverge (str_lower w) (str_lower lbl) = true → istarts w (lbl +:+ x) = None.
Proof.
  revert lbl. induction w as [|y w IH]; intros lbl.
  - unfold diverge. by destruct lbl.
  - destruct lbl as [|b lbl].
    + unfold diverge. simpl. discriminate.
    + rewrite str_app_cons. cbn [istarts]. destruct (ieq y b) eqn:Hb; [|done].
      apply ieq_lower in Hb. unfold str_lower in *. cbn [str_map].
      rewrite Hb, diverge_cons. apply IH.
Qed.

Lemma strip_sep_line ws c rest :
  str_forall is_space ws = true → is_sep c = true →
  strip_sep (ws +:+ String c rest) = Some (lstrip rest).
Proof.
  intros Hws Hc. unfold strip_sep, lstrip.
  rewrite (str_drop_while_app _ _ _ Hws). simpl.
  by rewrite (sep_not_space c Hc), Hc.
Qed.

Lemma length_line_minus lbl s :
  String.length (lbl +:+ s) - String.length s = String.length lbl.
Proof. rewrite str_length_app. lia. Qed.

(** *** Labelled lines under the patterns *)

Lemma forallb_elem {A} (f : A → bool) (l : list A) (x : A) :
  forallb f l = true → x ∈ l → f x = true.
Proof. intros H Hx. eapply forallb_forall; [exact H|]. by apply list_elem_of_In. Qed.

Lemma is_alias_elim aliases lbl :
  is_alias aliases lbl = true →
  ∃ w, w ∈ aliases ∧ str_lower lbl = str_lower w.
Proof.
  intros H%bool_decide_eq_true. apply list_elem_of_fmap in H as (w & Hw & Hin). eauto.
Qed.

Lemma alias_match_hit w lbl ws c rest :
  str_lower lbl = str_lower w →
  str_forall is_space ws = true → is_sep c = true →
  alias_match (labelled_line lbl ws c rest) w = Some (lbl, lstrip rest).
Proof.
  intros Hw Hws Hc. unfold alias_match, labelled_line.
  rewrite (istarts_app _ _ _ Hw). cbn [mbind option_bind].
  rewrite (strip_sep_line _ _ _ Hws Hc). cbn [fmap option_fmap option_map].
  by rewrite length_line_minus, str_take_app.
Qed.

Lemma alias_match_miss w lbl x :
  diverge (str_lower w) (str_lower lbl) = true → alias_match (lbl +:+ x) w = None.
Proof. intros H. unfold alias_match. by rewrite (istarts_diverge _ _ _ H). Qed.

Lemma alias_line_hit aliases lbl ws c rest :
  aliases_apart aliases aliases = true →
  is_alias aliases lbl = true →
  str_forall is_space ws = true → is_sep c = true →
  first_success (alias_match (labelled_line lbl ws c rest)) aliases
  = Some (lbl, lstrip rest).
Proof.
  intros Hapart (w & Hw & Hlbl)%is_alias_elim Hws Hc.
  apply first_success_agree.
  - intros w' Hw'.
    pose proof (forallb_elem _ _ w' Hapart Hw') as H1.
    pose proof (forallb_elem _ _ w H1 Hw) as H2.
    apply orb_true_iff in H2 as [H2%bool_decide_eq_true|H2].
    + right. apply alias_match_hit; congruence.
    + left. apply alias_match_miss. by rewrite Hlbl.
  - exists w. split; [done|]. by apply alias_match_hit.
Qed.

Lemma alias_line_miss aliases others lbl x :
  aliases_disjoint aliases others = true →
  is_alias others lbl = true →
  first_success (alias_match (lbl +:+ x)) aliases = None.
Proof.
  intros Hdis (w & Hw & Hlbl)%is_alias_elim.
  apply first_success_none. intros w' Hw'. apply alias_match_miss.
  rewrite Hlbl.
  exact (forallb_elem _ _ w (forallb_elem _ _ w' Hdis Hw') Hw).
Qed.

Lemma is_diarized_elim lbl :
  is_diarized_label lbl = true →
  ∃ p d ds, lbl = p +:+ String d ds ∧ str_lower p = "speaker_"
            ∧ is_digit d = true ∧ str_forall is_digit ds = true.
Proof.
  unfold is_diarized_label. destruct (istarts "SPEAKER_" lbl) as [ds|] eqn:Hs; [|done].
  apply istarts_inv in Hs as (p & -> & Hp).
  intros [Hne Hds]%andb_true_iff. destruct ds as [|d ds]; [done|].
  simpl in Hds. apply andb_true_iff in Hds as [Hd Hds].
  exists p, d, ds. by repeat split.
Qed.

Lemma str_drop_while_stop p ws c rest :
  (∀ a, is_space a = true → p a = false) → p c = false →
  str_forall is_space ws = true →
  str_drop_while p (ws +:+ String c rest) = ws +:+ String c rest.
Proof.
  intros Hsp Hc Hws. destruct ws as [|a ws]; simpl.
  - by rewrite Hc.
  - simpl in Hws. apply andb_true_iff in Hws as [Ha _]. by rewrite (Hsp a Ha).
Qed.

Lemma speaker_match_hit lbl ws c rest :
  is_diarized_label lbl = true →
  str_forall is_space ws = true → is_sep c = true →
  speaker_match (labelled_line lbl ws c rest) = Some (lbl, lstrip rest).
Proof.
  intros (p & d & ds & -> & Hp & Hd & Hds)%is_diarized_elim Hws Hc.
  unfold speaker_match, labelled_line. rewrite str_app_assoc.
  rewrite (istarts_app "SPEAKER_" p _ Hp). cbn [mbind option_bind].
  rewrite str_app_cons, Hd. cbn zeta.
  rewrite (str_drop_while_app _ _ _ Hds).
  rewrite (str_drop_while_stop is_digit ws c rest space_not_digit
             (sep_not_digit c Hc) Hws).
  rewrite (strip_sep_line _ _ _ Hws Hc). cbn [fmap option_fmap option_map].
  rewrite <- str_app_cons, <- str_app_assoc.
  by rewrite length_line_minus, str_take_app.
Qed.

Lemma speaker_label_no_alias aliases lbl x :
  aliases_disjoint aliases ["SPEAKER_"] = true →
  is_diarized_label lbl = true →
  first_success (alias_match (lbl +:+ x)) aliases = None.
Proof.
  intros Hdis (p & d & ds & -> & Hp & _)%is_diarized_elim.
  rewrite str_app_assoc. apply (alias_line_miss aliases ["SPEAKER_"]); [done|].
  unfold is_alias. apply bool_decide_eq_true. rewrite Hp.
  apply list_elem_of_fmap. exists "SPEAKER_". split; [done|]. apply elem_of_cons. by left.
Qed.

(** *** From a match back to the shape of the line *)

Lemma first_success_Some {A B} (f : A → option B) (l : list A) (v : B) :
  first_success f l = Some v → ∃ x, x ∈ l ∧ f x = Some v.
Proof.
  induction l as [|y l IH]; [done|]. simpl.
  destruct (f y) as [u|] eqn:Hy.
  - intros [= ->]. exists y. split; [apply elem_of_cons; by left|done].
  - intros (x & Hx & Hfx)%IH. exists x. split; [apply elem_of_cons; by right|done].
Qed.

Lemma strip_sep_inv s rest :
  strip_sep s = Some rest →
  ∃ ws c rest', s = ws +:+ String c rest'
                ∧ str_forall is_space ws = true ∧ is_sep c = true.
Proof.
  unfold strip_sep, lstrip. intros H.
  destruct (str_drop_while_split is_space s) as (ws & Hs & Hws).
  destruct (str_drop_while is_space s) as [|c s']; [done|].
  destruct (is_sep c) eqn:Hc; [|done]. by exists ws, c, s'.
Qed.

Lemma alias_match_inv aliases s w m :
  w ∈ aliases → alias_match s w = Some m →
  ∃ lbl ws c rest,
    s = labelled_line lbl ws c rest ∧ is_alias aliases lbl = true
    ∧ str_forall is_space ws = true ∧ is_sep c = true.
Proof.
  intros Hw. unfold alias_match.
  destruct (istarts w s) as [s1|] eqn:Hs; [|done]. cbn [mbind option_bind].
  destruct (strip_sep s1) as [rest|] eqn:Hs1; [|done]. intros _.
  apply istarts_inv in Hs as (lbl & -> & Hlbl).
  apply strip_sep_inv in Hs1 as (ws & c & rest' & -> & Hws & Hc).
  exists lbl, ws, c, rest'. split; [done|]. split; [|done].
  apply bool_decide_eq_true. rewrite Hlbl. by apply list_elem_of_fmap_2.
Qed.

Lemma speaker_match_inv s m :
  speaker_match s = Some m →
  ∃ lbl ws c rest,
    s = labelled_line lbl ws c rest ∧ is_diarized_label lbl = true
    ∧ str_forall is_space ws = true ∧ is_sep c = true.
Proof.
  unfold speaker_match.
  destruct (istarts "SPEAKER_" s) as [s0|] eqn:Hs; [|done]. cbn [mbind option_bind].
  destruct s0 as [|d s0]; [done|]. destruct (is_digit d) eqn:Hd; [|done]. cbn zeta.
  destruct (str_drop_while_split is_digit s0) as (ds & Hs0 & Hds).
  destruct (strip_sep (str_drop_while is_digit s0)) as [rest|] eqn:Hs1; [|done].
  intros _. apply istarts_inv in Hs as (p & -> & Hp).
  apply strip_sep_inv in Hs1 as (ws & c & rest' & Hs1 & Hws & Hc).
  exists (p +:+ String d ds), ws, c, rest'. split.
  { unfold labelled_line. rewrite str_app_assoc, str_app_cons.
    by rewrite <- Hs1, <- Hs0. }
  split; [|done]. unfold is_diarized_label.
  rewrite (istarts_app "SPEAKER_" p _ Hp). simpl. by rewrite Hd, Hds.
Qed.

(** ** Loops that append *)

Lemma fold_left_snoc {A B} (f : A → B) (l : list A) (acc : list B) :
  fold_left (λ acc x, acc ++ [f x]) l acc = acc ++ (f <$> l).
Proof.
  revert acc. induction l as [|x l IH]; intros acc; simpl.
  - by rewrite app_nil_r.
  - by rewrite IH, <- app_assoc.
Qed.

(** ** Role assignment *)

Section role_assignment.
Implicit Types (segments : list SpeechSegment) (seen : list string).

Lemma see_fold segments seen :
  NoDup seen →
  NoDup (fold_left see_speaker segments seen)
  ∧ (∃ more, fold_left see_speaker segments seen = seen ++ more)
  ∧ (∀ spk, spk ∈ fold_left see_speaker segments seen
            ↔ spk ∈ seen ∨ spk ∈ (seg_speaker_id <$> segments)).
Proof.
  revert seen. induction segments as [|seg segments IH]; intros seen Hnd.
  - simpl. split; [done|]. split; [exists []; by rewrite app_nil_r|].
    intros spk. rewrite elem_of_nil. tauto.
  - simpl. unfold see_speaker at 2 4 6. destruct (decide (seg_speaker_id seg ∈ seen)) as [Hin|Hin].
    + destruct (IH seen Hnd) as (H1 & H2 & H3). split; [done|]. split; [done|].
      intros spk. rewrite H3, elem_of_cons.
      split; [tauto|]. intros [?|[->|?]]; auto.
    + assert (NoDup (seen ++ [seg_speaker_id seg])) as Hnd'.
      { apply NoDup_app. split; [done|]. split; [|apply NoDup_singleton].
        intros x Hx ->%list_elem_of_singleton. done. }
      destruct (IH _ Hnd') as (H1 & [more H2] & H3). split; [done|]. split.
      * exists (seg_speaker_id seg :: more). rewrite H2. by rewrite <- app_assoc.
      * intros spk. rewrite H3, elem_of_app, list_elem_of_singleton, elem_of_cons. tauto.
Qed.

Lemma speakers_seen_NoDup segments : NoDup (speakers_seen segments).
Proof. apply (see_fold segments []), NoDup_nil_2. Qed.

Lemma speakers_seen_elem segments spk :
  spk ∈ speakers_seen segments ↔ spk ∈ (seg_speaker_id <$> segments).
Proof.
  unfold speakers_seen.
  destruct (see_fold segments [] (NoDup_nil_2)) as (_ & _ & H).
  rewrite (H spk), elem_of_nil. tauto.
Qed.

Lemma speakers_seen_head seg segments :
  ∃ more, speakers_seen (seg :: segments) = seg_speaker_id seg :: more.
Proof.
  unfold speakers_seen. simpl.
  destruct (decide (seg_speaker_id seg ∈ [])) as [Hin|_].
  { by apply elem_of_nil in Hin. }
  destruct (see_fold segments [seg_speaker_id seg]) as (_ & [more H] & _).
  { apply NoDup_singleton. }
  exists more. apply H.
Qed.

Lemma put_fold (f : nat → nat) seen (role_map : gmap string Role) :
  NoDup seen →
  let result := fold_left put_role (imap (λ i spk, (f i, spk)) seen) role_map in
  (∀ j spk, seen !! j = Some spk →
     result !! spk = Some (if f j =? 0 then agent else customer))
  ∧ (∀ spk, spk ∉ seen → result !! spk = role_map !! spk).
Proof.
  revert f role_map. induction seen as [|x seen IH]; intros f role_map Hnd; simpl.
  - split; [intros j spk; by rewrite lookup_nil|done].
  - apply NoDup_cons in Hnd as [Hx Hnd].
    change (imap ((λ i spk, (f i, spk)) ∘ S) seen)
      with (imap (λ i spk, ((f ∘ S) i, spk)) seen).
    destruct (IH (f ∘ S) (<[x:=if f 0 =? 0 then agent else customer]> role_map) Hnd)
      as [IH1 IH2].
    split.
    + intros [|j] spk Hj; simpl in Hj.
      * injection Hj as <-. rewrite (IH2 x Hx). apply lookup_insert_eq.
      * apply (IH1 j spk Hj).
    + intros spk Hspk. apply not_elem_of_cons in Hspk as [Hne Hspk].
      rewrite (IH2 spk Hspk). by apply lookup_insert_ne.
Qed.

Lemma assign_roles_lookup segments j spk :
  speakers_seen segments !! j = Some spk →
  _assign_roles_from_speakers segments !! spk
  = Some (if j =? 0 then agent else customer).
Proof.
  intros Hj.
  destruct (put_fold id (speakers_seen segments) ∅ (speakers_seen_NoDup segments))
    as [H _].
  apply (H j spk Hj).
Qed.

Lemma assign_roles_absent segments spk :
  spk ∉ (seg_speaker_id <$> segments) →
  _assign_roles_from_speakers segments !! spk = None.
Proof.
  intros Hspk.
  destruct (put_fold id (speakers_seen segments) ∅ (speakers_seen_NoDup segments))
    as [_ H].
  unfold _assign_roles_from_speakers, enumerate.
  rewrite <- (lookup_empty (M := gmap string) (A := Role) spk).
  apply H. by rewrite speakers_seen_elem.
Qed.
End role_assignment.

Lemma assign_roles_cons seg rest spk :
  _assign_roles_from_speakers (seg :: rest) !! spk
  = if decide (spk = seg_speaker_id seg) then Some agent
    else if decide (spk ∈ (seg_speaker_id <$> rest)) then Some customer
    else None.
Proof.
  destruct (speakers_seen_head seg rest) as [more Hseen].
  destruct (decide (spk = seg_speaker_id seg)) as [->|Hne].
  { apply (assign_roles_lookup (seg :: rest) 0). by rewrite Hseen. }
  destruct (decide (spk ∈ (seg_speaker_id <$> rest))) as [Hin|Hin].
  - assert (spk ∈ speakers_seen (seg :: rest)) as [j Hj]%list_elem_of_lookup.
    { apply speakers_seen_elem. rewrite fmap_cons. apply elem_of_cons. by right. }
    rewrite (assign_roles_lookup _ j spk Hj).
    destruct j as [|j]; [|done]. rewrite Hseen in Hj. simpl in Hj. congruence.
  - apply assign_roles_absent. rewrite fmap_cons. by intros [?|?]%elem_of_cons.
Qed.

(** C1. The role assigner returns the empty map on no segments; on a
    non-empty sequence the identifier of the first segment (the earliest
    first occurrence) is the agent, every other identifier that occurs is a
    customer, and an identifier that does not occur has no entry. *)
Theorem assign_roles_first_seen :
  _assign_roles_from_speakers [] = ∅
  ∧ ∀ (seg : SpeechSegment) (rest : list SpeechSegment) (spk : string),
      _assign_roles_from_speakers (seg :: rest) !! spk
      = if decide (spk = seg_speaker_id seg) then Some agent
        else if decide (spk ∈ (seg_speaker_id <$> rest)) then Some customer
        else None.
Proof.
  split; [reflexivity|]. intros seg rest spk.
  destruct (speakers_seen_head seg rest) as [more Hseen].
  destruct (decide (spk = seg_speaker_id seg)) as [->|Hne].
  - apply (assign_roles_lookup (seg :: rest) 0). by rewrite Hseen.
  - destruct (decide (spk ∈ (seg_speaker_id <$> rest))) as [Hin|Hin].
    + assert (spk ∈ speakers_seen (seg :: rest)) as Hs.
      { apply speakers_seen_elem. rewrite fmap_cons. apply elem_of_cons. by right. }
      apply list_elem_of_lookup in Hs as [j Hj].
      rewrite (assign_roles_lookup _ j spk Hj).
      destruct j as [|j]; [|done].
      rewrite Hseen in Hj. simpl in Hj. congruence.
    + apply assign_roles_absent. rewrite fmap_cons.
      by intros [?|?]%elem_of_cons.
Qed.

Example assign_roles_scenario :
  _assign_roles_from_speakers scenario_segments
  = <["SPEAKER_01" := agent]> (<["SPEAKER_00" := customer]> ∅).
Proof.
  apply map_eq. intros spk. unfold scenario_segments.
  rewrite assign_roles_cons. simpl.
  destruct (decide (spk = "SPEAKER_01")) as [->|H1]; [done|].
  rewrite lookup_insert_ne by done.
  destruct (decide (spk = "SPEAKER_00")) as [->|H0]; [done|].
  rewrite lookup_insert_ne by done. rewrite lookup_empty.
  case_decide as Hin; [|done].
  repeat (apply elem_of_cons in Hin as [?|Hin]; [done|]).
  by apply elem_of_nil in Hin.
Qed.

(** ** Audio path *)

Lemma normalize_from_speech_map segments :
  normalize_from_speech segments
  = speech_turn (_assign_roles_from_speakers segments) <$> segments.
Proof.
  destruct segments as [|seg rest]; [done|].
  unfold normalize_from_speech. by rewrite fold_left_snoc.
Qed.

(** C3. The audio path returns one turn per segment, in order: the turn at
    position [i] carries the text of segment [i] in both text fields,
    whatever its language, and its identifier, language, emotion and time
    bounds unchanged; no segments give no turns. *)
Theorem normalize_from_speech_pointwise (segments : list SpeechSegment) :
  normalize_from_speech [] = []
  ∧ length (normalize_from_speech segments) = length segments
  ∧ ∀ i seg, segments !! i = Some seg →
      ∃ t, normalize_from_speech segments !! i = Some t
        ∧ normalized_text_en t = seg_original_text seg
        ∧ original_text t = seg_original_text seg
        ∧ speaker_id t = seg_speaker_id seg
        ∧ language t = seg_language seg
        ∧ emotion t = seg_emotion seg
        ∧ start_time t = Some (seg_start_time seg)
        ∧ end_time t = Some (seg_end_time seg).
Proof.
  split; [done|]. rewrite normalize_from_speech_map. split.
  - by rewrite length_fmap.
  - intros i seg Hi. eexists. rewrite list_lookup_fmap, Hi. simpl. by repeat split.
Qed.

Lemma normalize_from_speech_pointwise_witness :
  length (normalize_from_speech scenario_segments) = 3
  ∧ ∃ t, normalize_from_speech scenario_segments !! 1 = Some t
      ∧ normalized_text_en t = "Hola, tengo un problema."
      ∧ language t = "es"
      ∧ start_time t = Some 1.5%float.
Proof.
  destruct (normalize_from_speech_pointwise scenario_segments)
    as (_ & Hlen & Hturn).
  destruct (Hturn 1 (scenario_segment "SPEAKER_00" "Hola, tengo un problema."
                       "es" 1.5 3) eq_refl)
    as (t & Ht & Hn & _ & _ & Hl & _ & Hs & _).
  split; [exact Hlen|]. exists t. by repeat split.
Defined.

(** The scenario of the specification on the audio path: three turns, in
    the order and with the time bounds of the segments. *)
Example normalize_from_speech_scenario :
  normalize_from_speech scenario_segments
  = [ {| speaker_id := "SPEAKER_01"; role := agent;
         original_text := "Hello, ConvI Bank.";
         normalized_text_en := "Hello, ConvI Bank."; language := "en";
         emotion := None; start_time := Some 0%float;
         end_time := Some 1.5%float |};
      {| speaker_id := "SPEAKER_00"; role := customer;
         original_text := "Hola, tengo un problema.";
         normalized_text_en := "Hola, tengo un problema."; language := "es";
         emotion := None; start_time := Some 1.5%float;
         end_time := Some 3%float |};
      {| speaker_id := "SPEAKER_01"; role := agent;
         original_text := "How can I help?";
         normalized_text_en := "How can I help?"; language := "en";
         emotion := None; start_time := Some 3%float;
         end_time := Some 4.25%float |} ].
Proof.
  rewrite normalize_from_speech_map, assign_roles_scenario. reflexivity.
Qed.

(** C10. Every segment's identifier is a key of the role map built from the
    same segments, so the fallback of the lookup is never taken: every turn
    of the audio path is an agent or a customer turn, never unknown. *)
Theorem normalize_from_speech_role_known (segments : list SpeechSegment) :
  (∀ seg, seg ∈ segments →
     is_Some (_assign_roles_from_speakers segments !! seg_speaker_id seg))
  ∧ (∀ t, t ∈ normalize_from_speech segments →
       role t ≠ unknown ∧ (role t = agent ∨ role t = customer)).
Proof.
  assert (∀ seg, seg ∈ segments →
            ∃ r, _assign_roles_from_speakers segments !! seg_speaker_id seg = Some r
                 ∧ (r = agent ∨ r = customer)) as Hkey.
  { intros seg Hseg.
    assert (seg_speaker_id seg ∈ speakers_seen segments) as Hs.
    { apply speakers_seen_elem, list_elem_of_fmap. eauto. }
    apply list_elem_of_lookup in Hs as [j Hj].
    rewrite (assign_roles_lookup _ j _ Hj). eexists. split; [done|].
    destruct (j =? 0); auto. }
  split.
  - intros seg Hseg. destruct (Hkey seg Hseg) as (r & -> & _). by eexists.
  - intros t. rewrite normalize_from_speech_map.
    intros (seg & -> & Hseg)%list_elem_of_fmap.
    destruct (Hkey seg Hseg) as (r & Hr & Hag). unfold speech_turn. simpl.
    rewrite Hr. simpl. destruct Hag as [-> | ->]; split; auto; discriminate.
Qed.

Lemma normalize_from_speech_role_known_witness :
  let t := speech_turn (_assign_roles_from_speakers scenario_segments)
             (scenario_segment "SPEAKER_00" "Hola, tengo un problema." "es"
                1.5 3) in
  role t ≠ unknown ∧ (role t = agent ∨ role t = customer).
Proof.
  apply (proj2 (normalize_from_speech_role_known scenario_segments)).
  rewrite normalize_from_speech_map. apply list_elem_of_fmap_2.
  unfold scenario_segments. in_list.
Defined.

(** ** Text path *)

(** *** The classification of a line *)

Lemma agent_aliases_apart : aliases_apart agent_aliases agent_aliases = true.
Proof. by vm_compute. Qed.

Lemma customer_aliases_apart :
  aliases_apart customer_aliases customer_aliases = true.
Proof. by vm_compute. Qed.

Lemma agent_customer_disjoint :
  aliases_disjoint agent_aliases customer_aliases = true.
Proof. by vm_compute. Qed.

Lemma agent_speaker_disjoint :
  aliases_disjoint agent_aliases ["SPEAKER_"] = true.
Proof. by vm_compute. Qed.

Lemma customer_speaker_disjoint :
  aliases_disjoint customer_aliases ["SPEAKER_"] = true.
Proof. by vm_compute. Qed.

Lemma classify_agent i lbl ws c rest :
  is_alias agent_aliases lbl = true →
  str_forall is_space ws = true → is_sep c = true →
  classify i (labelled_line lbl ws c rest) = ("AGENT", agent, strip rest).
Proof.
  intros Hlbl Hws Hc. unfold classify, re_sub.
  rewrite re_match_agent, (alias_line_hit _ _ _ _ _ agent_aliases_apart Hlbl Hws Hc).
  by rewrite strip_lstrip.
Qed.

Lemma classify_customer i lbl ws c rest :
  is_alias customer_aliases lbl = true →
  str_forall is_space ws = true → is_sep c = true →
  classify i (labelled_line lbl ws c rest) = ("CUSTOMER", customer, strip rest).
Proof.
  intros Hlbl Hws Hc. unfold classify, re_sub.
  rewrite re_match_agent.
  unfold labelled_line at 1.
  rewrite (alias_line_miss _ _ lbl _ agent_customer_disjoint Hlbl).
  rewrite re_match_customer, (alias_line_hit _ _ _ _ _ customer_aliases_apart Hlbl Hws Hc).
  by rewrite strip_lstrip.
Qed.

Lemma classify_speaker i lbl ws c rest :
  is_diarized_label lbl = true →
  str_forall is_space ws = true → is_sep c = true →
  classify i (labelled_line lbl ws c rest)
  = (str_upper lbl,
     if decide (str_upper lbl = "SPEAKER_00") then agent else customer,
     strip rest).
Proof.
  intros Hlbl Hws Hc. unfold classify, re_sub.
  rewrite re_match_agent. unfold labelled_line at 1.
  rewrite (speaker_label_no_alias _ lbl _ agent_speaker_disjoint Hlbl).
  rewrite re_match_customer. unfold labelled_line at 1.
  rewrite (speaker_label_no_alias _ lbl _ customer_speaker_disjoint Hlbl).
  rewrite re_match_speaker, (speaker_match_hit _ _ _ _ Hlbl Hws Hc).
  by rewrite strip_lstrip.
Qed.

(** The lines that none of the three patterns matches are the unlabelled
    lines. *)
Lemma unlabelled_no_pattern line : unlabelled line ↔ no_pattern_matches line.
Proof.
  unfold unlabelled, no_pattern_matches. split.
  - intros Hun.
    rewrite re_match_agent, re_match_customer, re_match_speaker.
    repeat split.
    + destruct (first_success _ agent_aliases) as [m|] eqn:Hm; [|done].
      exfalso. apply Hun.
      apply first_success_Some in Hm as (w & Hw & Hm).
      destruct (alias_match_inv _ _ _ _ Hw Hm) as (lbl & ws & c & rest & ? & Hl & ? & ?).
      exists lbl, ws, c, rest. unfold recognized_label. by rewrite Hl.
    + destruct (first_success _ customer_aliases) as [m|] eqn:Hm; [|done].
      exfalso. apply Hun.
      apply first_success_Some in Hm as (w & Hw & Hm).
      destruct (alias_match_inv _ _ _ _ Hw Hm) as (lbl & ws & c & rest & ? & Hl & ? & ?).
      exists lbl, ws, c, rest. unfold recognized_label. rewrite Hl.
      by rewrite orb_true_r.
    + destruct (speaker_match line) as [m|] eqn:Hm; [|done].
      exfalso. apply Hun.
      destruct (speaker_match_inv _ _ Hm) as (lbl & ws & c & rest & ? & Hl & ? & ?).
      exists lbl, ws, c, rest. unfold recognized_label. rewrite Hl.
      by rewrite orb_true_r.
  - intros (Ha & Hc & Hs) (lbl & ws & c & rest & -> & Hl & Hws & Hsep).
    unfold recognized_label in Hl.
    apply orb_true_iff in Hl as [[Hl|Hl]%orb_true_iff|Hl].
    + rewrite re_match_agent in Ha.
      by rewrite (alias_line_hit _ _ _ _ _ agent_aliases_apart Hl Hws Hsep) in Ha.
    + rewrite re_match_customer in Hc.
      by rewrite (alias_line_hit _ _ _ _ _ customer_aliases_apart Hl Hws Hsep) in Hc.
    + rewrite re_match_speaker in Hs.
      by rewrite (speaker_match_hit _ _ _ _ Hl Hws Hsep) in Hs.
Qed.

Lemma classify_plain i line :
  unlabelled line →
  classify i line
  = (if i mod 2 =? 0 then "AGENT" else "CUSTOMER",
     if i mod 2 =? 0 then agent else customer, line).
Proof.
  intros (Ha & Hc & Hs)%unlabelled_no_pattern. unfold classify.
  rewrite Ha, Hc, Hs. by destruct (i mod 2 =? 0).
Qed.

Lemma classify_text i line : (classify i line).2 = line_text line.
Proof.
  unfold line_text, classify.
  destruct (re_match _AGENT_PREFIX line); [done|].
  destruct (re_match _CUSTOMER_PREFIX line); [done|].
  by destruct (re_match _SPEAKER_PREFIX line) as [[]|].
Qed.

Lemma line_turn_text lang i line :
  line_turn lang i line
  = if decide (line_text line = "") then None
    else Some (text_turn lang (classify i line).1.1 (classify i line).1.2
                 (line_text line)).
Proof.
  unfold line_turn. rewrite <- (classify_text i line).
  by destruct (classify i line) as [[spk r] text].
Qed.

(** *** The loop over the lines *)

Lemma text_loop_omap lang i lines turns :
  text_loop lang i lines turns
  = turns ++ omap id (imap (λ j, line_turn lang (i + j)) lines).
Proof.
  revert i turns. induction lines as [|line rest IH]; intros i turns.
  - simpl. by rewrite app_nil_r.
  - cbn [text_loop imap omap]. rewrite Nat.add_0_r.
    assert (imap ((λ j, line_turn lang (i + j)) ∘ S) rest
            = imap (λ j, line_turn lang (S i + j)) rest) as ->.
    { apply imap_ext. intros j x _. simpl. f_equal. lia. }
    destruct (line_turn lang i line) as [t|]; rewrite IH; simpl.
    + by rewrite <- app_assoc.
    + done.
Qed.

Lemma normalize_from_text_omap transcript lang :
  normalize_from_text transcript lang
  = omap id (imap (line_turn lang) (transcript_lines transcript)).
Proof. unfold normalize_from_text. by rewrite text_loop_omap. Qed.

Lemma normalize_from_text_elem transcript lang t :
  t ∈ normalize_from_text transcript lang
  ↔ ∃ i line, transcript_lines transcript !! i = Some line
              ∧ line_turn lang i line = Some t.
Proof.
  rewrite normalize_from_text_omap, list_elem_of_omap. split.
  - intros (o & Ho & Hid). simpl in Hid. subst o.
    apply list_elem_of_lookup in Ho as [i Hi].
    rewrite list_lookup_imap in Hi.
    destruct (transcript_lines transcript !! i) as [line|] eqn:Hline; [|done].
    exists i, line. split; [done|]. by injection Hi.
  - intros (i & line & Hline & Ht). exists (Some t). split; [|done].
    apply list_elem_of_lookup. exists i. rewrite list_lookup_imap, Hline. simpl.
    by rewrite Ht.
Qed.

(** *** The lines of a transcript *)

Lemma splitlines_no_linebreak s l :
  l ∈ splitlines s → str_forall not_linebreak l = true.
Proof.
  remember (String.length s) as n eqn:Hn.
  assert (String.length s ≤ n) as Hle by lia. clear Hn.
  revert s l Hle. induction n as [|n IH]; intros [|c s] l Hle; simpl in *;
    try (by intros ?%elem_of_nil); try lia.
  destruct (is_linebreak c) eqn:Hc.
  - assert (l ∈ "" :: splitlines s → str_forall not_linebreak l = true) as Hs.
    { intros [->|Hl]%elem_of_cons; [done|]. apply (IH s); [lia|done]. }
    destruct s as [|c' s']; [exact Hs|].
    destruct (Ascii.eqb c "013" && Ascii.eqb c' "010"); [|exact Hs].
    intros [->|Hl]%elem_of_cons; [done|]. apply (IH s'); [simpl in Hle; lia|done].
  - pose proof (IH s) as IHs.
    destruct (splitlines s) as [|l' ls].
    + intros ->%list_elem_of_singleton. simpl. unfold not_linebreak at 1. by rewrite Hc.
    + intros [->|Hl]%elem_of_cons.
      * simpl. unfold not_linebreak at 1. rewrite Hc. simpl.
        apply IHs; [lia|]. apply elem_of_cons. by left.
      * apply IHs; [lia|]. apply elem_of_cons. by right.
Qed.

Lemma transcript_lines_elem transcript line :
  line ∈ transcript_lines transcript →
  line ≠ "" ∧ str_forall not_linebreak line = true.
Proof.
  unfold transcript_lines. intros (l & Hl & Hline)%list_elem_of_omap.
  destruct (decide (strip l = "")) as [|Hne]; [done|]. injection Hline as <-.
  split; [done|]. by apply strip_forall, (splitlines_no_linebreak _ _ Hl).
Qed.

(** A line boundary is white space, so a transcript of blank lines is a
    transcript of white space. *)
Lemma blank_is_space s :
  str_forall (λ c, is_space c || is_linebreak c) s = true →
  str_forall is_space s = true.
Proof.
  induction s as [|c s IH]; [done|]. simpl. intros [Hc Hs]%andb_true_iff.
  rewrite (IH Hs), andb_true_r.
  apply orb_true_iff in Hc as [Hc|Hc]; [done|by apply linebreak_is_space].
Qed.

Lemma transcript_lines_spaces transcript :
  str_forall is_space transcript = true → transcript_lines transcript = [].
Proof. intros H. unfold transcript_lines. by rewrite (strip_spaces _ H). Qed.

(** *** Unlabelled lines *)

Lemma line_turn_plain lang i line :
  unlabelled line → line ≠ "" →
  line_turn lang i line = Some (plain_turn lang i line).
Proof.
  intros Hun Hne. unfold line_turn. rewrite (classify_plain i line Hun).
  destruct (decide (line = "")); [done|]. unfold plain_turn.
  by destruct (i mod 2 =? 0).
Qed.

Lemma omap_imap_Some {A B} (f : nat → A → option B) (g : nat → A → B) (l : list A) :
  (∀ i x, l !! i = Some x → f i x = Some (g i x)) →
  omap id (imap f l) = imap g l.
Proof.
  revert f g. induction l as [|x l IH]; intros f g H; [done|].
  cbn [imap omap]. rewrite (H 0 x eq_refl). simpl. f_equal.
  apply IH. intros i y Hi. apply (H (S i) y Hi).
Qed.

(** C6. Every turn of the text path has a non-empty original text, and
    its normalized text is that same text. *)
Theorem text_turns_not_empty (transcript lang : string) (t : ConversationTurn) :
  t ∈ normalize_from_text transcript lang →
  original_text t ≠ "" ∧ normalized_text_en t = original_text t.
Proof.
  intros (i & line & _ & Ht)%normalize_from_text_elem.
  rewrite line_turn_text in Ht.
  destruct (decide (line_text line = "")) as [|Hne]; [done|].
  injection Ht as <-. by split.
Qed.

Lemma text_turns_not_empty_witness :
  original_text (text_turn "en" "CUSTOMER" customer "hi") ≠ ""
  ∧ normalized_text_en (text_turn "en" "CUSTOMER" customer "hi")
    = original_text (text_turn "en" "CUSTOMER" customer "hi").
Proof.
  apply (text_turns_not_empty labelled_transcript "en").
  vm_compute. in_list.
Defined.

(** *** Labelled lines *)

Lemma line_turn_emitted transcript lang i line t :
  transcript_lines transcript !! i = Some line →
  line_turn lang i line = Some t →
  t ∈ normalize_from_text transcript lang.
Proof. intros Hi Ht. apply normalize_from_text_elem. eauto. Qed.

Lemma line_turn_classify lang i line spk r text :
  classify i line = (spk, r, text) →
  line_turn lang i line
  = if decide (text = "") then None else Some (text_turn lang spk r text).
Proof. intros H. unfold line_turn. by rewrite H. Qed.

(** C4, amended. A line that begins with an agent-side alias in any case,
    optional white space and a colon or hyphen gives, wherever it stands,
    the turn of role agent, speaker AGENT and text the stripped remainder
    of the line, provided that remainder is not empty; with an empty
    remainder it gives no turn.  The same holds for customer-side aliases
    with role customer and speaker CUSTOMER. *)
Theorem explicit_label_turn
    (transcript lang : string) (i : nat)
    (lbl ws : string) (c : ascii) (rest : string) :
  transcript_lines transcript !! i = Some (labelled_line lbl ws c rest) →
  str_forall is_space ws = true → is_sep c = true →
  (is_alias agent_aliases lbl = true →
     line_turn lang i (labelled_line lbl ws c rest)
     = (if decide (strip rest = "") then None
        else Some (text_turn lang "AGENT" agent (strip rest)))
     ∧ (strip rest ≠ "" →
        text_turn lang "AGENT" agent (strip rest)
        ∈ normalize_from_text transcript lang))
  ∧ (is_alias customer_aliases lbl = true →
     line_turn lang i (labelled_line lbl ws c rest)
     = (if decide (strip rest = "") then None
        else Some (text_turn lang "CUSTOMER" customer (strip rest)))
     ∧ (strip rest ≠ "" →
        text_turn lang "CUSTOMER" customer (strip rest)
        ∈ normalize_from_text transcript lang)).
Proof.
  intros Hi Hws Hc. split; intros Hlbl.
  - pose proof (line_turn_classify lang _ _ _ _ _
                  (classify_agent i lbl ws c rest Hlbl Hws Hc)) as Ht.
    split; [done|]. intros Hne. apply (line_turn_emitted _ _ _ _ _ Hi).
    rewrite Ht. by destruct (decide (strip rest = "")).
  - pose proof (line_turn_classify lang _ _ _ _ _
                  (classify_customer i lbl ws c rest Hlbl Hws Hc)) as Ht.
    split; [done|]. intros Hne. apply (line_turn_emitted _ _ _ _ _ Hi).
    rewrite Ht. by destruct (decide (strip rest = "")).
Qed.

Lemma explicit_label_turn_witness :
  text_turn "en" "CUSTOMER" customer "hi"
  ∈ normalize_from_text labelled_transcript "en".
Proof.
  refine (proj2 (proj2 (explicit_label_turn labelled_transcript "en" 1
                          "Customer" "" "-" " hi" _ _ _) _) _);
    by vm_compute.
Defined.

(** A line made of an agent-side alias and a colon gives no turn at all. *)
Lemma explicit_label_without_text :
  transcript_lines "Agent:" = [labelled_line "Agent" "" ":" ""]
  ∧ is_alias agent_aliases "Agent" = true
  ∧ normalize_from_text "Agent:" "en" = [].
Proof. by vm_compute. Qed.

(** C2, amended. A line that begins with SPEAKER_ in any case, digits,
    optional white space and a colon or hyphen gives a turn whose speaker
    identifier is the label in upper case, whose role is agent exactly
    when that identifier is SPEAKER_00 and customer otherwise, whatever
    labels the transcript holds, and whose text is the stripped remainder,
    provided that remainder is not empty. *)
Theorem diarized_label_turn
    (transcript lang : string) (i : nat)
    (lbl ws : string) (c : ascii) (rest : string) :
  transcript_lines transcript !! i = Some (labelled_line lbl ws c rest) →
  is_diarized_label lbl = true →
  str_forall is_space ws = true → is_sep c = true →
  strip rest ≠ "" →
  let t := text_turn lang (str_upper lbl)
             (if decide (str_upper lbl = "SPEAKER_00") then agent else customer)
             (strip rest) in
  line_turn lang i (labelled_line lbl ws c rest) = Some t
  ∧ t ∈ normalize_from_text transcript lang.
Proof.
  intros Hi Hlbl Hws Hc Hne t.
  pose proof (line_turn_classify lang _ _ _ _ _
                (classify_speaker i lbl ws c rest Hlbl Hws Hc)) as Ht.
  destruct (decide (strip rest = "")); [done|].
  split; [done|]. by apply (line_turn_emitted _ _ _ _ _ Hi).
Qed.

Lemma diarized_label_turn_witness :
  text_turn "en" "SPEAKER_02" customer "hi"
  ∈ normalize_from_text diarized_transcript "en".
Proof.
  refine (proj2 (diarized_label_turn diarized_transcript "en" 1
                   "speaker_02" " " "-" " hi" _ _ _ _ _));
    by vm_compute.
Defined.

(** In a transcript whose diarized labels are SPEAKER_01 and SPEAKER_02 the
    label that comes first in lexicographic order is SPEAKER_01, and its
    turn is a customer turn. *)
Lemma diarized_role_is_hardcoded :
  normalize_from_text diarized_transcript "en"
  = [text_turn "en" "SPEAKER_01" customer "hello";
     text_turn "en" "SPEAKER_02" customer "hi"]
  ∧ lexically_first (diarized_labels diarized_transcript) = Some "SPEAKER_01"
  ∧ spec_diarized_role diarized_transcript "SPEAKER_01" = agent.
Proof. by vm_compute. Qed.

(** C9. The degenerate inputs give no turns and the empty dialogue: no
    segments on the audio path, and the empty transcript or one made of
    white space only on the text path. *)
Theorem degenerate_inputs (transcript lang : string) :
  str_forall (λ c, is_space c || is_linebreak c) transcript = true →
  normalize_from_speech [] = []
  ∧ normalize_from_text "" lang = []
  ∧ normalize_from_text transcript lang = []
  ∧ turns_to_dialogue_string (normalize_from_text transcript lang) = ""
  ∧ turns_to_dialogue_string (normalize_from_speech []) = "".
Proof.
  intros H.
  assert (normalize_from_text transcript lang = []) as Hnil.
  { unfold normalize_from_text.
    by rewrite (transcript_lines_spaces _ (blank_is_space _ H)). }
  rewrite Hnil. by repeat split.
Qed.

Lemma degenerate_inputs_witness :
  normalize_from_text blank_transcript "en" = []
  ∧ turns_to_dialogue_string (normalize_from_text blank_transcript "en") = "".
Proof.
  destruct (degenerate_inputs blank_transcript "en" eq_refl)
    as (_ & _ & H1 & H2 & _).
  by split.
Defined.

(** ** Dialogue renderer *)

Lemma turns_to_dialogue_string_join turns :
  turns_to_dialogue_string turns = join LF (dialogue_line <$> turns).
Proof. unfold turns_to_dialogue_string. by rewrite fold_left_snoc. Qed.

(** C7. The dialogue string of no turns is empty; otherwise it is the
    lines of the turns in order with one line feed between two lines and
    none after the last.  A line is the capitalized role, then the emotion
    between square brackets after a space when the turn has one (an absent
    emotion, like an empty one, adds nothing), then a colon, a space and
    the normalized text. *)
Theorem dialogue_string_format :
  turns_to_dialogue_string [] = ""
  ∧ (∀ t, turns_to_dialogue_string [t] = dialogue_line t)
  ∧ (∀ t t' ts,
       turns_to_dialogue_string (t :: t' :: ts)
       = dialogue_line t +:+ LF +:+ turns_to_dialogue_string (t' :: ts))
  ∧ (∀ t,
       dialogue_line t
       = match role t with
         | agent => "Agent"
         | customer => "Customer"
         | unknown => "Unknown"
         end
         +:+ match emotion t with
             | Some e => if decide (e = "") then "" else " [" +:+ e +:+ "]"
             | None => ""
             end
         +:+ ": " +:+ normalized_text_en t).
Proof.
  split; [done|]. split; [done|]. split.
  - intros t t' ts. by rewrite !turns_to_dialogue_string_join.
  - intros t. unfold dialogue_line, emotion_tag. by destruct (role t).
Qed.

(** ** The dialogue of a transcript, line by line *)

Lemma star_match_rest {A} p s (k : string → option A) x :
  star_match p s k = Some x →
  ∃ s', k s' = Some x
        ∧ ∀ q, str_forall q s = true → str_forall q s' = true.
Proof.
  induction s as [|c s IH]; simpl.
  - intros H. exists "". by split.
  - assert (k (String c s) = Some x →
            ∃ s', k s' = Some x
                  ∧ ∀ q, str_forall q (String c s) = true → str_forall q s' = true)
      as Hhere by (intros H; exists (String c s); by split).
    destruct (p c); [|exact Hhere].
    destruct (star_match p s k) as [y|] eqn:Hs; [|exact Hhere].
    intros [= ->]. destruct (IH eq_refl) as (s' & Hk & Hq).
    exists s'. split; [done|]. intros q [_ H]%andb_true_iff. by apply Hq.
Qed.

Lemma rmatch_rest {A} r s (k : string → option A) x :
  rmatch r s k = Some x →
  ∃ s', k s' = Some x
        ∧ ∀ q, str_forall q s = true → str_forall q s' = true.
Proof.
  revert s k. induction r as [|p|p|r1 IH1 r2 IH2|r1 IH1 r2 IH2]; intros s k; simpl.
  - intros H. exists s. by split.
  - destruct s as [|c s]; [done|]. destruct (p c); [|done].
    intros H. exists s. split; [done|]. by intros q [_ ?]%andb_true_iff.
  - apply star_match_rest.
  - intros (s1 & (s2 & Hk & H2)%IH2 & H1)%IH1. exists s2. split; [done|]. auto.
  - destruct (rmatch r1 s k) as [y|] eqn:Hr1.
    + intros [= ->]. by apply IH1.
    + apply IH2.
Qed.

Lemma re_sub_forall q pat s :
  str_forall q s = true → str_forall q (re_sub pat s) = true.
Proof.
  intros Hs. unfold re_sub.
  destruct (re_match pat s) as [[g rest]|] eqn:Hm; [|done].
  unfold re_match in Hm.
  apply rmatch_rest in Hm as (s1 & (s2 & [= _ <-] & H2)%rmatch_rest & H1).
  auto.
Qed.

Lemma line_text_forall q line :
  str_forall q line = true → str_forall q (line_text line) = true.
Proof.
  intros H. unfold line_text, classify.
  destruct (re_match _AGENT_PREFIX line); [by apply strip_forall, re_sub_forall|].
  destruct (re_match _CUSTOMER_PREFIX line); [by apply strip_forall, re_sub_forall|].
  destruct (re_match _SPEAKER_PREFIX line) as [[]|]; [|done].
  by apply strip_forall, re_sub_forall.
Qed.

Lemma classify_role i line :
  (classify i line).1.2 = agent ∨ (classify i line).1.2 = customer.
Proof.
  unfold classify.
  destruct (re_match _AGENT_PREFIX line); [by left|].
  destruct (re_match _CUSTOMER_PREFIX line); [by right|].
  destruct (re_match _SPEAKER_PREFIX line) as [[g rest]|]; cbn [fst snd].
  - destruct (decide (str_upper g = "SPEAKER_00")); auto.
  - destruct (i mod 2 =? 0); auto.
Qed.

(** A line of the dialogue of a transcript is not empty and holds no line
    boundary. *)
Lemma text_dialogue_line transcript lang t :
  t ∈ normalize_from_text transcript lang →
  dialogue_line t ≠ "" ∧ str_forall not_linebreak (dialogue_line t) = true.
Proof.
  intros (i & line & Hi & Ht)%normalize_from_text_elem.
  rewrite line_turn_text in Ht.
  destruct (decide (line_text line = "")); [done|]. injection Ht as <-.
  assert (str_forall not_linebreak (line_text line) = true) as Htext.
  { apply line_text_forall, (transcript_lines_elem transcript).
    apply list_elem_of_lookup. eauto. }
  unfold dialogue_line, emotion_tag, text_turn. cbn [role emotion normalized_text_en].
  destruct (classify_role i line) as [-> | ->]; (split; [done|]);
    rewrite !str_forall_app, Htext; by vm_compute.
Qed.

Lemma splitlines_line l :
  str_forall not_linebreak l = true →
  splitlines l = if decide (l = "") then [] else [l].
Proof.
  induction l as [|c l IH]; [done|]. simpl. unfold not_linebreak at 1.
  intros [Hc Hl]%andb_true_iff. apply negb_true_iff in Hc. rewrite Hc, (IH Hl).
  by destruct (decide (l = "")) as [->|].
Qed.

Lemma splitlines_app_LF l rest :
  str_forall not_linebreak l = true →
  splitlines (l +:+ LF +:+ rest) = l :: splitlines rest.
Proof.
  induction l as [|c l IH].
  - intros _. change (splitlines (String "010" rest) = "" :: splitlines rest).
    by destruct rest.
  - simpl. unfold not_linebreak at 1. intros [Hc Hl]%andb_true_iff.
    apply negb_true_iff in Hc. by rewrite Hc, (IH Hl).
Qed.

Lemma splitlines_join ls :
  (∀ l, l ∈ ls → l ≠ "" ∧ str_forall not_linebreak l = true) →
  splitlines (join LF ls) = ls.
Proof.
  induction ls as [|l ls IH]; intros Hall; [done|].
  destruct (Hall l) as [Hne Hl]; [apply elem_of_cons; by left|].
  assert (splitlines (join LF ls) = ls) as IH'.
  { apply IH. intros l' Hl'. apply Hall, elem_of_cons. by right. }
  destruct ls as [|l' ls].
  - simpl. rewrite (splitlines_line l Hl). by destruct (decide (l = "")).
  - change (join LF (l :: l' :: ls)) with (l +:+ LF +:+ join LF (l' :: ls)).
    by rewrite (splitlines_app_LF _ _ Hl), IH'.
Qed.

(** ** Scenarios of the specification *)

Example bank_transcript_turns :
  normalize_from_text bank_transcript "en"
  = [text_turn "en" "AGENT" agent
       "Thank you for calling ConvI Bank. How can I help you today?";
     text_turn "en" "CUSTOMER" customer
       "There is an unauthorized transaction of 5000 rupees on my account."].
Proof. by vm_compute. Qed.

(** A line dropped for its empty text still counts in the positions of the
    unlabelled lines that follow it. *)
Example dropped_line_keeps_its_index :
  transcript_lines dropped_line_transcript = ["Agent:"; "hello"; "goodbye"]
  ∧ normalize_from_text dropped_line_transcript "en"
    = [plain_turn "en" 1 "hello"; plain_turn "en" 2 "goodbye"].
Proof. by vm_compute. Qed.

Example dialogue_with_emotion :
  turns_to_dialogue_string
    [text_turn "en" "AGENT" agent "How can I help?"; angry_turn]
  = "Agent: How can I help?" +:+ LF +:+ "Customer [angry]: This is fraud!".
Proof. by vm_compute. Qed.

(** * Further properties *)

(** ** Role assignment *)

Lemma speakers_seen_snoc segments seg :
  speakers_seen (segments ++ [seg]) = see_speaker (speakers_seen segments) seg.
Proof. unfold speakers_seen. by rewrite fold_left_app. Qed.

(** X1. [speakers_seen] is the list of the identifiers in the order of their
    first occurrence: each identifier that occurs is in it once, and the
    list is what is left of the identifiers when every later repetition
    is removed. *)
Theorem speakers_seen_first_occurrences (segments : list SpeechSegment) :
  speakers_seen segments
  = reverse (remove_dups (reverse (seg_speaker_id <$> segments)))
  ∧ NoDup (speakers_seen segments)
  ∧ ∀ spk, spk ∈ speakers_seen segments ↔ spk ∈ (seg_speaker_id <$> segments).
Proof.
  split; [|split; [apply speakers_seen_NoDup|apply speakers_seen_elem]].
  induction segments as [|seg segments IH] using rev_ind; [done|].
  rewrite speakers_seen_snoc, fmap_app, reverse_app. cbn [fmap list_fmap reverse].
  change (reverse [seg_speaker_id seg] ++ reverse (seg_speaker_id <$> segments))
    with (seg_speaker_id seg :: reverse (seg_speaker_id <$> segments)).
  cbn [remove_dups]. unfold see_speaker.
  destruct (decide (seg_speaker_id seg ∈ speakers_seen segments)) as [Hin|Hin];
    destruct (decide_rel elem_of (seg_speaker_id seg)
                (reverse (seg_speaker_id <$> segments))) as [Hin'|Hin'].
  - done.
  - exfalso. apply Hin'. by apply elem_of_reverse, speakers_seen_elem.
  - exfalso. by apply Hin, speakers_seen_elem, elem_of_reverse.
  - by rewrite reverse_cons, IH.
Qed.

Lemma assign_roles_is_Some segments spk :
  is_Some (_assign_roles_from_speakers segments !! spk)
  ↔ spk ∈ (seg_speaker_id <$> segments).
Proof.
  split.
  - intros [r Hr]. destruct (decide (spk ∈ (seg_speaker_id <$> segments))); [done|].
    rewrite assign_roles_absent in Hr; done.
  - intros Hin%speakers_seen_elem. apply list_elem_of_lookup in Hin as [j Hj].
    rewrite (assign_roles_lookup _ j spk Hj). by eexists.
Qed.

(** X2. On a non-empty sequence exactly one identifier is the agent, the
    one of the first segment, and no identifier is ever mapped to unknown. *)
Theorem assign_roles_one_agent
    (seg : SpeechSegment) (rest : list SpeechSegment) (spk : string) :
  (_assign_roles_from_speakers (seg :: rest) !! spk = Some agent
   ↔ spk = seg_speaker_id seg)
  ∧ _assign_roles_from_speakers (seg :: rest) !! spk ≠ Some unknown
  ∧ _assign_roles_from_speakers [] !! spk = None.
Proof.
  rewrite (assign_roles_cons seg rest spk).
  destruct (decide (spk = seg_speaker_id seg)) as [->|Hne].
  - by repeat split.
  - destruct (decide (spk ∈ (seg_speaker_id <$> rest))); by repeat split.
Qed.

(** X3. The keys of the role map are exactly the identifiers that occur,
    so the map has as many entries as there are distinct speakers. *)
Theorem assign_roles_dom (segments : list SpeechSegment) :
  dom (_assign_roles_from_speakers segments)
  = list_to_set (seg_speaker_id <$> segments)
  ∧ size (_assign_roles_from_speakers segments)
    = length (remove_dups (seg_speaker_id <$> segments)).
Proof.
  assert (dom (_assign_roles_from_speakers segments)
          = list_to_set (C := gset string) (seg_speaker_id <$> segments)) as Hdom.
  { apply set_eq. intros spk.
    by rewrite elem_of_dom, elem_of_list_to_set, assign_roles_is_Some. }
  split; [done|].
  rewrite <- size_dom, Hdom.
  rewrite <- (size_list_to_set (C := gset string) (remove_dups _))
    by apply NoDup_remove_dups.
  f_equal. apply set_eq. intros spk.
  by rewrite !elem_of_list_to_set, elem_of_remove_dups.
Qed.

(** ** Audio path *)

(** X4. On the audio path a turn is an agent turn exactly when its speaker
    is the speaker of the first segment, and a customer turn otherwise; so
    the first turn is an agent turn and two turns of one speaker have one
    role. *)
Theorem normalize_from_speech_roles
    (seg : SpeechSegment) (rest : list SpeechSegment) (t : ConversationTurn) :
  t ∈ normalize_from_speech (seg :: rest) →
  role t = if decide (speaker_id t = seg_speaker_id seg) then agent
           else customer.
Proof.
  rewrite normalize_from_speech_map.
  intros (s & -> & Hs)%list_elem_of_fmap. unfold speech_turn. cbn [role speaker_id].
  rewrite assign_roles_cons.
  destruct (decide (seg_speaker_id s = seg_speaker_id seg)); [done|].
  apply elem_of_cons in Hs as [->|Hs]; [done|].
  destruct (decide (seg_speaker_id s ∈ (seg_speaker_id <$> rest))) as [|Hn]; [done|].
  exfalso. by apply Hn, list_elem_of_fmap_2.
Qed.

Lemma normalize_from_speech_roles_witness :
  role (speech_turn (_assign_roles_from_speakers scenario_segments)
          (scenario_segment "SPEAKER_00" "Hola, tengo un problema." "es" 1.5 3))
  = customer.
Proof.
  apply (normalize_from_speech_roles
           (scenario_segment "SPEAKER_01" "Hello, ConvI Bank." "en" 0 1.5)
           [scenario_segment "SPEAKER_00" "Hola, tengo un problema." "es" 1.5 3;
            scenario_segment "SPEAKER_01" "How can I help?" "en" 3 4.25]).
  rewrite normalize_from_speech_map. apply list_elem_of_fmap_2. in_list.
Defined.

(** X5. Segments that arrive later never change the role of a speaker
    already heard, so the turns of a recording that goes on are the turns
    of what was heard so far followed by new ones. *)
Theorem normalize_from_speech_stable (segments more : list SpeechSegment) :
  (∀ spk, spk ∈ (seg_speaker_id <$> segments) →
     _assign_roles_from_speakers (segments ++ more) !! spk
     = _assign_roles_from_speakers segments !! spk)
  ∧ normalize_from_speech (segments ++ more)
    = normalize_from_speech segments
      ++ (speech_turn (_assign_roles_from_speakers (segments ++ more)) <$> more).
Proof.
  assert (∀ spk, spk ∈ (seg_speaker_id <$> segments) →
            _assign_roles_from_speakers (segments ++ more) !! spk
            = _assign_roles_from_speakers segments !! spk) as Hstable.
  { destruct segments as [|seg rest]; [by intros spk ?%elem_of_nil|].
    intros spk Hin. rewrite <- app_comm_cons, !assign_roles_cons.
    destruct (decide (spk = seg_speaker_id seg)) as [->|Hne]; [done|].
    rewrite fmap_cons in Hin. apply elem_of_cons in Hin as [?|Hin]; [done|].
    rewrite fmap_app.
    destruct (decide (spk ∈ (seg_speaker_id <$> rest))); [|done].
    destruct (decide (spk ∈ (seg_speaker_id <$> rest) ++ (seg_speaker_id <$> more)))
      as [|Hn]; [done|].
    exfalso. apply Hn, elem_of_app. by left. }
  split; [exact Hstable|].
  rewrite !normalize_from_speech_map, fmap_app. f_equal.
  apply list_fmap_ext. intros i seg Hseg. unfold speech_turn.
  rewrite Hstable; [done|].
  apply list_elem_of_fmap_2, list_elem_of_lookup. eauto.
Qed.

Lemma normalize_from_speech_stable_witness :
  _assign_roles_from_speakers
    (scenario_segments
     ++ [scenario_segment "SPEAKER_02" "Hi." "en" 5 6]) !! "SPEAKER_00"
  = _assign_roles_from_speakers scenario_segments !! "SPEAKER_00".
Proof.
  apply (proj1 (normalize_from_speech_stable scenario_segments
                  [scenario_segment "SPEAKER_02" "Hi." "en" 5 6])).
  vm_compute. in_list.
Defined.

(** ** White space at the ends of a string *)

Lemma rstrip_eq c s :
  rstrip (String c s)
  = match rstrip s with
    | "" => if is_space c then "" else String c ""
    | r => String c r
    end.
Proof. reflexivity. Qed.

Lemma rstrip_cons c s :
  rstrip (String c s) = "" ∨ ∃ r, rstrip (String c s) = String c r.
Proof.
  simpl. destruct (rstrip s) as [|c' r].
  - destruct (is_space c); [by left|right; by eexists].
  - right. by eexists.
Qed.

Lemma rstrip_idemp s : rstrip (rstrip s) = rstrip s.
Proof.
  induction s as [|c s IH]; [done|]. simpl.
  destruct (rstrip s) as [|c' r] eqn:Hr.
  - destruct (is_space c) eqn:Hc; [done|]. simpl. by rewrite Hc.
  - by rewrite rstrip_eq, IH.
Qed.

Lemma rstrip_spaces ws : str_forall is_space ws = true → rstrip ws = "".
Proof.
  induction ws as [|c ws IH]; [done|]. simpl. intros [Hc Hws]%andb_true_iff.
  by rewrite (IH Hws), Hc.
Qed.

Lemma rstrip_app_spaces s ws :
  str_forall is_space ws = true → rstrip (s +:+ ws) = rstrip s.
Proof.
  intros Hws. induction s as [|c s IH]; [by apply rstrip_spaces|].
  by rewrite str_app_cons, !rstrip_eq, IH.
Qed.

(** Nothing is removed on the right of a string whose end survives. *)
Lemma rstrip_app x b : rstrip b ≠ "" → rstrip (x +:+ b) = x +:+ rstrip b.
Proof.
  intros Hb. induction x as [|c x IH]; [done|].
  rewrite !str_app_cons, rstrip_eq, IH.
  destruct x as [|c' x]; [|done].
  change ("" +:+ rstrip b) with (rstrip b). by destruct (rstrip b).
Qed.

Lemma lstrip_rstrip s : lstrip s = s → lstrip (rstrip s) = rstrip s.
Proof.
  destruct s as [|c s]; [done|]. unfold lstrip. intros H.
  cbn [str_drop_while] in H. destruct (is_space c) eqn:Hc.
  - exfalso.
    pose proof (str_drop_while_split is_space s) as (run & Hs & _).
    apply (f_equal String.length) in Hs. rewrite H, str_length_app in Hs.
    simpl in Hs. lia.
  - destruct (rstrip_cons c s) as [Hr|[r Hr]]; rewrite Hr; [done|].
    cbn [str_drop_while]. by rewrite Hc.
Qed.

Lemma strip_idemp s : strip (strip s) = strip s.
Proof.
  unfold strip. rewrite lstrip_rstrip.
  - apply rstrip_idemp.
  - apply str_drop_while_idemp.
Qed.

Lemma stripped_ends s : strip s = s → lstrip s = s ∧ rstrip s = s.
Proof.
  intros H. split.
  - rewrite <- H at 1. unfold strip.
    rewrite lstrip_rstrip by apply str_drop_while_idemp. exact H.
  - rewrite <- H at 1. unfold strip. rewrite rstrip_idemp. exact H.
Qed.

Lemma lstrip_app a x : a ≠ "" → lstrip a = a → lstrip (a +:+ x) = a +:+ x.
Proof.
  destruct a as [|c a]; [done|]. intros _. unfold lstrip.
  rewrite str_app_cons. cbn [str_drop_while].
  destruct (is_space c) eqn:Hc; [|done].
  intros H. exfalso.
  pose proof (str_drop_while_split is_space a) as (run & Ha & _).
  apply (f_equal String.length) in Ha. rewrite H, str_length_app in Ha.
  simpl in Ha. lia.
Qed.

(** A string that begins and ends with a stripped, non-empty string is
    stripped. *)
Lemma strip_between a m b :
  a ≠ "" → strip a = a → b ≠ "" → strip b = b →
  strip (a +:+ m +:+ b) = a +:+ m +:+ b.
Proof.
  intros Ha [Hla _]%stripped_ends Hb [_ Hrb]%stripped_ends. unfold strip.
  rewrite (lstrip_app _ _ Ha Hla), <- !str_app_assoc, rstrip_app; rewrite Hrb; done.
Qed.

Lemma strip_outer ws1 s ws2 :
  str_forall is_space ws1 = true → str_forall is_space ws2 = true →
  strip (ws1 +:+ s +:+ ws2) = strip s.
Proof.
  intros H1 H2. unfold strip, lstrip. rewrite (str_drop_while_app _ _ _ H1).
  induction s as [|c s IH].
  - change ("" +:+ ws2) with ws2. fold (lstrip ws2).
    by rewrite (lstrip_spaces _ H2).
  - rewrite str_app_cons. cbn [str_drop_while].
    destruct (is_space c); [exact IH|].
    by rewrite <- str_app_cons, rstrip_app_spaces.
Qed.

(** ** Text path *)

Lemma transcript_lines_clean transcript line :
  line ∈ transcript_lines transcript → clean_line line.
Proof.
  intros Hline. destruct (transcript_lines_elem _ _ Hline) as [Hne Hlb].
  split; [done|]. split; [|done].
  unfold transcript_lines in Hline.
  apply list_elem_of_omap in Hline as (l & _ & Hl).
  destruct (decide (strip l = "")); [done|]. injection Hl as <-.
  apply strip_idemp.
Qed.

Lemma line_text_stripped line :
  strip line = line → strip (line_text line) = line_text line.
Proof.
  intros H. unfold line_text, classify.
  destruct (re_match _AGENT_PREFIX line); [apply strip_idemp|].
  destruct (re_match _CUSTOMER_PREFIX line); [apply strip_idemp|].
  destruct (re_match _SPEAKER_PREFIX line) as [[]|]; [apply strip_idemp|done].
Qed.

Lemma text_turn_of_line transcript lang t :
  t ∈ normalize_from_text transcript lang →
  ∃ i line, transcript_lines transcript !! i = Some line
            ∧ line_text line ≠ ""
            ∧ t = text_turn lang (classify i line).1.1 (classify i line).1.2
                    (line_text line).
Proof.
  intros (i & line & Hi & Ht)%normalize_from_text_elem.
  rewrite line_turn_text in Ht.
  destruct (decide (line_text line = "")); [done|]. injection Ht as <-.
  by exists i, line.
Qed.

Lemma text_turn_shape transcript lang t :
  t ∈ normalize_from_text transcript lang →
  ∃ spk r text, t = text_turn lang spk r text
                ∧ (r = agent ∨ r = customer) ∧ clean_line text.
Proof.
  intros (i & line & Hi & Hne & ->)%text_turn_of_line.
  assert (clean_line line) as (_ & Hs & Hlb).
  { apply (transcript_lines_clean transcript), list_elem_of_lookup. eauto. }
  do 3 eexists. split; [done|]. split; [apply classify_role|].
  split; [done|]. split; [by apply line_text_stripped|by apply line_text_forall].
Qed.

(** X6. Every turn of the text path carries the language the caller gave,
    has no emotion and no time bounds, and is an agent or a customer turn,
    never an unknown one. *)
Theorem text_turn_fields (transcript lang : string) (t : ConversationTurn) :
  t ∈ normalize_from_text transcript lang →
  language t = lang ∧ emotion t = None
  ∧ start_time t = None ∧ end_time t = None
  ∧ (role t = agent ∨ role t = customer).
Proof.
  intros (i & line & _ & _ & ->)%text_turn_of_line.
  repeat split. apply classify_role.
Qed.

Lemma text_turn_fields_witness :
  language (text_turn "ml" "CUSTOMER" customer "hi") = "ml"
  ∧ emotion (text_turn "ml" "CUSTOMER" customer "hi") = None
  ∧ start_time (text_turn "ml" "CUSTOMER" customer "hi") = None
  ∧ end_time (text_turn "ml" "CUSTOMER" customer "hi") = None
  ∧ (role (text_turn "ml" "CUSTOMER" customer "hi") = agent
     ∨ role (text_turn "ml" "CUSTOMER" customer "hi") = customer).
Proof.
  apply (text_turn_fields labelled_transcript "ml"). vm_compute. in_list.
Defined.

(** X7. The text of a turn of the text path is not empty, begins and ends
    with a character that is not white space, and holds no line boundary. *)
Theorem text_turn_clean (transcript lang : string) (t : ConversationTurn) :
  t ∈ normalize_from_text transcript lang →
  clean_line (original_text t).
Proof.
  intros (i & line & Hi & Hne & ->)%text_turn_of_line. cbn [original_text text_turn].
  assert (clean_line line) as (_ & Hs & Hlb).
  { apply (transcript_lines_clean transcript), list_elem_of_lookup. eauto. }
  split; [done|]. split; [by apply line_text_stripped|by apply line_text_forall].
Qed.

Lemma text_turn_clean_witness :
  clean_line (original_text (text_turn "en" "CUSTOMER" customer "hi")).
Proof.
  apply (text_turn_clean labelled_transcript "en"). vm_compute. in_list.
Defined.

(** The language does not take part in the parsing. *)
Lemma line_turn_language lang lang' i line :
  line_turn lang' i line = with_language lang' <$> line_turn lang i line.
Proof.
  rewrite !line_turn_text. by destruct (decide (line_text line = "")).
Qed.

Lemma omap_imap_fmap {A B C} (f : nat → A → option B) (g : B → C) (l : list A) :
  omap id (imap (λ i x, g <$> f i x) l) = g <$> omap id (imap f l).
Proof.
  revert f. induction l as [|x l IH]; intros f; [done|].
  cbn [imap]. change ((λ i x, g <$> f i x) ∘ S) with (λ i x, g <$> (f ∘ S) i x).
  cbn [omap list_omap]. rewrite IH. by destruct (f 0 x).
Qed.

(** X8. The language code only labels the turns: with another code the
    same turns come out, in the same order, with that code instead. *)
Theorem normalize_from_text_language (transcript lang lang' : string) :
  normalize_from_text transcript lang'
  = with_language lang' <$> normalize_from_text transcript lang.
Proof.
  rewrite !normalize_from_text_omap, <- omap_imap_fmap. f_equal.
  apply imap_ext. intros i line _. apply line_turn_language.
Qed.

(** X10. White space and blank lines around a transcript are ignored. *)
Theorem normalize_from_text_outer_space (ws1 transcript ws2 lang : string) :
  str_forall is_space ws1 = true → str_forall is_space ws2 = true →
  normalize_from_text (ws1 +:+ transcript +:+ ws2) lang
  = normalize_from_text transcript lang.
Proof.
  intros H1 H2. unfold normalize_from_text, transcript_lines.
  by rewrite (strip_outer _ _ _ H1 H2).
Qed.

Lemma normalize_from_text_outer_space_witness :
  normalize_from_text ((LF +:+ "  ") +:+ labelled_transcript +:+ (" " +:+ LF)) "en"
  = normalize_from_text labelled_transcript "en".
Proof.
  by apply (normalize_from_text_outer_space (LF +:+ "  ") labelled_transcript
              (" " +:+ LF) "en").
Defined.

(** ** Lines joined by a line boundary *)

Lemma join_cons sep l l' ls :
  join sep (l :: l' :: ls) = l +:+ sep +:+ join sep (l' :: ls).
Proof. reflexivity. Qed.

Lemma join_begins sep l ls : ∃ x, join sep (l :: ls) = l +:+ x.
Proof.
  destruct ls as [|l' ls].
  - exists "". induction l as [|c l IH]; [done|].
    rewrite str_app_cons. simpl in *. by rewrite <- IH.
  - eexists. apply join_cons.
Qed.

Lemma splitlines_app_sep l sep rest :
  str_forall not_linebreak l = true → is_line_sep sep →
  (∀ c r, rest = String c r → is_linebreak c = false) →
  splitlines (l +:+ sep +:+ rest) = l :: splitlines rest.
Proof.
  intros Hl Hsep Hrest. induction l as [|c l IH].
  - change ("" +:+ sep +:+ rest) with (sep +:+ rest).
    destruct Hsep as [(b & -> & Hb)| ->].
    + change (String b "" +:+ rest) with (String b rest).
      cbn [splitlines]. rewrite Hb. destruct rest as [|c' r]; [done|].
      assert ((c' =? "010")%char = false) as ->.
      { apply Ascii.eqb_neq. intros ->. by specialize (Hrest _ _ eq_refl). }
      by rewrite andb_false_r.
    + change (CRLF +:+ rest) with (String "013" (String "010" rest)).
      reflexivity.
  - cbn [str_forall] in Hl. apply andb_true_iff in Hl as [Hc Hl].
    unfold not_linebreak in Hc. apply negb_true_iff in Hc.
    rewrite str_app_cons. cbn [splitlines]. by rewrite Hc, (IH Hl).
Qed.

Lemma splitlines_join_sep sep ls :
  Forall clean_line ls → is_line_sep sep → splitlines (join sep ls) = ls.
Proof.
  intros Hls Hsep. induction Hls as [|l ls (Hne & _ & Hlb) Hls IH]; [done|].
  destruct ls as [|l' ls].
  - simpl. rewrite (splitlines_line l Hlb). by destruct (decide (l = "")).
  - rewrite join_cons, splitlines_app_sep, IH; [done..|].
    intros c r Hr. destruct (join_begins sep l' ls) as [x Hx]. rewrite Hx in Hr.
    apply Forall_cons in Hls as [(Hne' & _ & Hlb') _].
    destruct l' as [|c' l']; [done|]. rewrite str_app_cons in Hr.
    injection Hr as <- _. cbn [str_forall] in Hlb'.
    apply andb_true_iff in Hlb' as [Hc' _]. by apply negb_true_iff in Hc'.
Qed.

Lemma rstrip_join sep l ls :
  Forall clean_line (l :: ls) →
  rstrip (join sep (l :: ls)) = join sep (l :: ls) ∧ join sep (l :: ls) ≠ "".
Proof.
  revert l. induction ls as [|l' ls IH]; intros l Hls.
  - apply Forall_cons in Hls as [(Hne & Hs & _) _].
    split; [by apply stripped_ends|done].
  - apply Forall_cons in Hls as [(Hne & _) Hls].
    destruct (IH l' Hls) as [Hr Hn]. rewrite join_cons. split.
    + rewrite <- str_app_assoc, rstrip_app; rewrite Hr; done.
    + destruct l; [done|]. by rewrite str_app_cons.
Qed.

Lemma strip_join sep ls :
  Forall clean_line ls → strip (join sep ls) = join sep ls.
Proof.
  destruct ls as [|l ls]; [done|]. intros Hls.
  destruct (rstrip_join sep l ls Hls) as [Hr _].
  destruct (join_begins sep l ls) as [x Hx].
  apply Forall_cons in Hls as [(Hne & [Hl _]%stripped_ends & _) _].
  unfold strip. rewrite Hx at 1. rewrite (lstrip_app _ _ Hne Hl), <- Hx. exact Hr.
Qed.

Lemma omap_clean_lines ls :
  Forall clean_line ls →
  omap (λ l, if decide (strip l = "") then None else Some (strip l)) ls = ls.
Proof.
  induction 1 as [|l ls (Hne & Hs & _) _ IH]; [done|].
  cbn [omap list_omap]. rewrite Hs. destruct (decide (l = "")); [done|].
  by rewrite IH.
Qed.

Lemma transcript_lines_join_sep sep ls :
  Forall clean_line ls → is_line_sep sep → transcript_lines (join sep ls) = ls.
Proof.
  intros Hls Hsep. unfold transcript_lines.
  by rewrite (strip_join _ _ Hls), (splitlines_join_sep _ _ Hls Hsep),
       (omap_clean_lines _ Hls).
Qed.

Lemma LF_is_line_sep : is_line_sep LF.
Proof. left. by exists "010"%char. Qed.

(** X12. Clean lines joined by a line boundary are read back as they are,
    whichever boundary it is; so a transcript with CR LF (or CR) line ends
    gives the turns of the same transcript with LF line ends. *)
Theorem transcript_lines_join (sep lang : string) (ls : list string) :
  Forall clean_line ls → is_line_sep sep →
  transcript_lines (join sep ls) = ls
  ∧ normalize_from_text (join sep ls) lang
    = normalize_from_text (join LF ls) lang.
Proof.
  intros Hls Hsep. split; [by apply transcript_lines_join_sep|].
  unfold normalize_from_text.
  rewrite (transcript_lines_join_sep sep ls Hls Hsep).
  by rewrite (transcript_lines_join_sep LF ls Hls LF_is_line_sep).
Qed.

Lemma transcript_lines_join_witness :
  transcript_lines (join CRLF ["Agent: hello"; "Customer: hi"])
  = ["Agent: hello"; "Customer: hi"]
  ∧ normalize_from_text (join CRLF ["Agent: hello"; "Customer: hi"]) "en"
    = normalize_from_text (join LF ["Agent: hello"; "Customer: hi"]) "en".
Proof.
  apply (transcript_lines_join CRLF "en" ["Agent: hello"; "Customer: hi"]).
  - repeat (apply Forall_cons; split; [by vm_compute|]). apply Forall_nil_2.
  - by right.
Defined.

(** ** Dialogue renderer *)

Lemma join_app sep x xs y ys :
  join sep ((x :: xs) ++ y :: ys)
  = join sep (x :: xs) +:+ sep +:+ join sep (y :: ys).
Proof.
  revert x. induction xs as [|x' xs IH]; intros x; [done|].
  change (join sep ((x :: x' :: xs) ++ y :: ys))
    with (x +:+ sep +:+ join sep ((x' :: xs) ++ y :: ys)).
  by rewrite IH, join_cons, !str_app_assoc.
Qed.

(** X13. The dialogue of two sequences of turns put end to end is the two
    dialogues with one line feed between them. *)
Theorem dialogue_string_app
    (t : ConversationTurn) (ts : list ConversationTurn)
    (t' : ConversationTurn) (ts' : list ConversationTurn) :
  turns_to_dialogue_string ((t :: ts) ++ t' :: ts')
  = turns_to_dialogue_string (t :: ts) +:+ LF
    +:+ turns_to_dialogue_string (t' :: ts').
Proof.
  rewrite !turns_to_dialogue_string_join, fmap_app, !fmap_cons. apply join_app.
Qed.

(** ** From the dialogue back to the turns *)

Lemma dialogue_line_text_turn lang spk r text :
  r = agent ∨ r = customer →
  dialogue_line (text_turn lang spk r text)
  = labelled_line (capitalize (Role_value r)) "" ":" (" " +:+ text)
  ∧ is_alias (if decide (r = agent) then agent_aliases else customer_aliases)
      (capitalize (Role_value r)) = true.
Proof. by intros [-> | ->]. Qed.

Lemma dialogue_line_read lang' i lang spk r text :
  r = agent ∨ r = customer → clean_line text →
  clean_line (dialogue_line (text_turn lang spk r text))
  ∧ line_turn lang' i (dialogue_line (text_turn lang spk r text))
    = Some (text_turn lang' (role_speaker r) r text).
Proof.
  intros Hr (Hne & Hs & Hlb).
  assert (strip (" " +:+ text) = text) as Hrest.
  { change (strip text = text). exact Hs. }
  split.
  - destruct Hr as [-> | ->]; (split; [done|]); split.
    + by apply (strip_between "Agent" ": " text).
    + unfold dialogue_line. cbn. by rewrite !str_forall_app, Hlb.
    + by apply (strip_between "Customer" ": " text).
    + unfold dialogue_line. cbn. by rewrite !str_forall_app, Hlb.
  - destruct (dialogue_line_text_turn lang spk r text Hr) as [-> Hal].
    destruct Hr as [-> | ->].
    + rewrite (line_turn_classify lang' _ _ _ _ _
                 (classify_agent i _ "" ":" (" " +:+ text) Hal eq_refl eq_refl)).
      rewrite Hrest. by destruct (decide (text = "")).
    + rewrite (line_turn_classify lang' _ _ _ _ _
                 (classify_customer i _ "" ":" (" " +:+ text) Hal eq_refl eq_refl)).
      rewrite Hrest. by destruct (decide (text = "")).
Qed.

(** X14. The dialogue rendered from the turns of a transcript can be read
    back: parsing it gives, turn for turn, the same roles and the same
    texts, with speaker AGENT or CUSTOMER according to the role; and
    rendering what was read back gives the same dialogue again. *)
Theorem dialogue_round_trip (transcript lang lang' : string) :
  let turns := normalize_from_text transcript lang in
  let dialogue := turns_to_dialogue_string turns in
  normalize_from_text dialogue lang'
  = (λ t, text_turn lang' (role_speaker (role t)) (role t) (original_text t))
      <$> turns
  ∧ turns_to_dialogue_string (normalize_from_text dialogue lang') = dialogue.
Proof.
  intros turns dialogue.
  assert (∀ t, t ∈ turns →
            ∃ spk r text, t = text_turn lang spk r text
                          ∧ (r = agent ∨ r = customer) ∧ clean_line text) as Hturn.
  { intros t Ht. by apply (text_turn_shape transcript lang). }
  assert (normalize_from_text dialogue lang'
          = (λ t, text_turn lang' (role_speaker (role t)) (role t)
                    (original_text t)) <$> turns) as Hread.
  { unfold dialogue. rewrite turns_to_dialogue_string_join.
    rewrite normalize_from_text_omap.
    rewrite (transcript_lines_join_sep LF (dialogue_line <$> turns)).
    - rewrite imap_fmap, <- (imap_const _ turns). apply omap_imap_Some.
      intros i t Hi. simpl.
      destruct (Hturn t) as (spk & r & text & -> & Hr & Hc).
      { apply list_elem_of_lookup. eauto. }
      by apply dialogue_line_read.
    - apply Forall_fmap, Forall_forall. intros t Ht. simpl.
      destruct (Hturn t Ht) as (spk & r & text & -> & Hr & Hc).
      by apply (dialogue_line_read lang' 0).
    - apply LF_is_line_sep. }
  split; [exact Hread|]. rewrite Hread. unfold dialogue.
  rewrite !turns_to_dialogue_string_join, <- list_fmap_compose. f_equal.
  apply list_fmap_ext. intros i t Hi. simpl.
  destruct (Hturn t) as (spk & r & text & -> & Hr & Hc).
  { apply list_elem_of_lookup. eauto. }
  by destruct Hr as [-> | ->].
Qed.

(** ** The retrieval query *)

Lemma str_take_length n s : String.length (str_take n s) = n `min` String.length s.
Proof.
  revert s. induction n as [|n IH]; intros [|c s]; try done.
  simpl. by rewrite IH.
Qed.

Lemma str_take_all n s : String.length s ≤ n → str_take n s = s.
Proof.
  revert s. induction n as [|n IH]; intros [|c s]; simpl; try done; try lia.
  intros H. rewrite IH; [done|lia].
Qed.

Lemma str_take_forall q n s :
  str_forall q s = true → str_forall q (str_take n s) = true.
Proof.
  revert s. induction n as [|n IH]; intros [|c s]; try done.
  cbn [str_forall str_take]. intros [Hc Hs]%andb_true_iff.
  by rewrite Hc, (IH s Hs).
Qed.

Lemma join_forall q sep ls :
  str_forall q sep = true → Forall (λ l, str_forall q l = true) ls →
  str_forall q (join sep ls) = true.
Proof.
  intros Hsep. induction 1 as [|l ls Hl Hls IH]; [done|].
  destruct ls as [|l' ls]; [done|].
  by rewrite join_cons, !str_forall_app, Hl, Hsep, IH.
Qed.

(** X15. The retrieval query built from the turns is never longer than 500
    characters and is the texts joined by single spaces when these fit;
    built from the turns of a transcript, it is a single line. *)
Theorem retrieval_query_bound
    (turns : list ConversationTurn) (transcript lang : string) :
  String.length (retrieval_query turns) ≤ 500
  ∧ (String.length (join " " (normalized_text_en <$> turns)) ≤ 500 →
     retrieval_query turns = join " " (normalized_text_en <$> turns))
  ∧ str_forall not_linebreak
      (retrieval_query (normalize_from_text transcript lang)) = true.
Proof.
  unfold retrieval_query. split; [rewrite str_take_length; lia|].
  split; [apply str_take_all|].
  apply str_take_forall, join_forall; [done|].
  apply Forall_fmap, Forall_forall. intros t Ht. simpl.
  by destruct (text_turn_shape _ _ _ Ht) as (spk & r & text & -> & _ & _ & _ & ?).
Qed.

Example retrieval_query_bank :
  retrieval_query (normalize_from_text bank_transcript "en")
  = "Thank you for calling ConvI Bank. How can I help you today? There is an unauthorized transaction of 5000 rupees on my account.".
Proof. by vm_compute. Qed.

(** ** What the three patterns accept *)

Lemma customer_agent_disjoint :
  aliases_disjoint customer_aliases agent_aliases = true.
Proof. by vm_compute. Qed.

Lemma speaker_agent_disjoint :
  aliases_disjoint ["SPEAKER_"] agent_aliases = true.
Proof. by vm_compute. Qed.

Lemma speaker_customer_disjoint :
  aliases_disjoint ["SPEAKER_"] customer_aliases = true.
Proof. by vm_compute. Qed.

Lemma alias_line_no_speaker aliases lbl x :
  aliases_disjoint ["SPEAKER_"] aliases = true →
  is_alias aliases lbl = true →
  speaker_match (lbl +:+ x) = None.
Proof.
  intros Hdis (w & Hw & Hlbl)%is_alias_elim. unfold speaker_match.
  rewrite istarts_diverge; [done|]. rewrite Hlbl.
  refine (forallb_elem _ _ w (forallb_elem _ _ "SPEAKER_" Hdis _) Hw). in_list.
Qed.

Lemma alias_match_shape aliases line :
  is_Some (first_success (alias_match line) aliases) →
  ∃ lbl ws c rest,
    line = labelled_line lbl ws c rest ∧ is_alias aliases lbl = true
    ∧ str_forall is_space ws = true ∧ is_sep c = true.
Proof.
  intros [m (w & Hw & Hm)%first_success_Some]. by apply (alias_match_inv _ _ w m).
Qed.

(** X16. No line is matched by two of the three prefix patterns, so the
    order in which the parser tries them never decides how a line is
    classified. *)
Theorem patterns_exclusive (line : string) :
  (is_Some (re_match _AGENT_PREFIX line) →
     re_match _CUSTOMER_PREFIX line = None
     ∧ re_match _SPEAKER_PREFIX line = None)
  ∧ (is_Some (re_match _CUSTOMER_PREFIX line) →
     re_match _AGENT_PREFIX line = None
     ∧ re_match _SPEAKER_PREFIX line = None)
  ∧ (is_Some (re_match _SPEAKER_PREFIX line) →
     re_match _AGENT_PREFIX line = None
     ∧ re_match _CUSTOMER_PREFIX line = None).
Proof.
  rewrite re_match_agent, re_match_customer, re_match_speaker. repeat split.
  - apply alias_match_shape in H as (lbl & ws & c & rest & -> & Hl & _).
    by apply (alias_line_miss _ agent_aliases _ _ customer_agent_disjoint).
  - apply alias_match_shape in H as (lbl & ws & c & rest & -> & Hl & _).
    by apply (alias_line_no_speaker agent_aliases _ _ speaker_agent_disjoint).
  - apply alias_match_shape in H as (lbl & ws & c & rest & -> & Hl & _).
    by apply (alias_line_miss _ customer_aliases _ _ agent_customer_disjoint).
  - apply alias_match_shape in H as (lbl & ws & c & rest & -> & Hl & _).
    by apply (alias_line_no_speaker customer_aliases _ _ speaker_customer_disjoint).
  - destruct H as [m Hm].
    apply speaker_match_inv in Hm as (lbl & ws & c & rest & -> & Hl & _).
    by apply speaker_label_no_alias.
  - destruct H as [m Hm].
    apply speaker_match_inv in Hm as (lbl & ws & c & rest & -> & Hl & _).
    by apply speaker_label_no_alias.
Qed.

(** X17. A line is matched by one of the three prefix patterns exactly
    when it is a recognized label (an alias of the agent or of the
    customer, or SPEAKER_ and digits, in any case), optional white space,
    a colon or a hyphen, and any remainder. *)
Theorem has_label_iff_match (line : string) :
  has_label line
  ↔ is_Some (re_match _AGENT_PREFIX line)
    ∨ is_Some (re_match _CUSTOMER_PREFIX line)
    ∨ is_Some (re_match _SPEAKER_PREFIX line).
Proof.
  split.
  - intros Hlab.
    destruct (re_match _AGENT_PREFIX line) eqn:Ha; [left; by eexists|].
    destruct (re_match _CUSTOMER_PREFIX line) eqn:Hc; [right; left; by eexists|].
    destruct (re_match _SPEAKER_PREFIX line) eqn:Hs; [right; right; by eexists|].
    exfalso. by apply (proj2 (unlabelled_no_pattern line)).
  - rewrite re_match_agent, re_match_customer, re_match_speaker.
    intros [H|[H|[m Hm]]].
    + apply alias_match_shape in H as (lbl & ws & c & rest & ? & Hl & ? & ?).
      exists lbl, ws, c, rest. unfold recognized_label. by rewrite Hl.
    + apply alias_match_shape in H as (lbl & ws & c & rest & ? & Hl & ? & ?).
      exists lbl, ws, c, rest. unfold recognized_label. rewrite Hl.
      by rewrite orb_true_r.
    + apply speaker_match_inv in Hm as (lbl & ws & c & rest & ? & Hl & ? & ?).
      exists lbl, ws, c, rest. unfold recognized_label. rewrite Hl.
      by rewrite orb_true_r.
Qed.

(** ** The non-blank lines of a transcript *)

Local Notation "'keep_lines' ls" :=
  (omap (λ l : string, if decide (strip l = "") then None else Some (strip l))
        (ls : list string))
  (at level 10, ls at level 9, only parsing).

Lemma splitlines_eq c s :
  splitlines (String c s)
  = if is_linebreak c then
      match s with
      | String c' s'' =>
          if Ascii.eqb c "013" && Ascii.eqb c' "010"
          then "" :: splitlines s'' else "" :: splitlines s
      | "" => "" :: splitlines s
      end
    else
      match splitlines s with
      | [] => [String c ""]
      | l :: ls => String c l :: ls
      end.
Proof. reflexivity. Qed.

Lemma rstrip_empty s : rstrip s = "" → str_forall is_space s = true.
Proof.
  induction s as [|c s IH]; [done|]. rewrite rstrip_eq.
  destruct (rstrip s) as [|c' r]; [|done].
  destruct (is_space c) eqn:Hc; [|done]. intros _. simpl. by rewrite Hc, IH.
Qed.

(** The lines that strip to nothing are the blank lines. *)
Lemma strip_empty_iff l : strip l = "" ↔ is_blank l = true.
Proof.
  split; [|apply strip_spaces]. unfold strip. intros H%rstrip_empty.
  destruct (str_drop_while_split is_space l) as (run & Hl & Hrun).
  unfold is_blank. rewrite Hl, str_forall_app, Hrun. exact H.
Qed.

Lemma rstrip_split s :
  ∃ ws, s = rstrip s +:+ ws ∧ str_forall is_space ws = true.
Proof.
  induction s as [|c s (ws & Hs & Hws)]; [by exists ""|]. rewrite rstrip_eq.
  destruct (rstrip s) as [|c' r] eqn:Hr.
  - change ("" +:+ ws) with ws in Hs. subst s.
    destruct (is_space c) eqn:Hc.
    + exists (String c ws). split; [done|]. simpl. by rewrite Hc.
    + by exists ws.
  - exists ws. by rewrite str_app_cons, <- Hs.
Qed.

Lemma keep_lines_filter ls :
  keep_lines ls = strip <$> filter (λ l, is_blank l = false) ls.
Proof.
  induction ls as [|l ls IH]; [done|]. rewrite filter_cons. cbn [omap list_omap].
  destruct (decide (strip l = "")) as [He|Hne].
  - apply strip_empty_iff in He.
    destruct (decide (is_blank l = false)) as [Hb|_]; [congruence|exact IH].
  - destruct (decide (is_blank l = false)) as [_|Hb].
    + by rewrite fmap_cons, IH.
    + destruct Hne. apply strip_empty_iff. by destruct (is_blank l).
Qed.

Lemma keep_lines_blank ls :
  Forall (λ l, is_blank l = true) ls → keep_lines ls = [].
Proof.
  induction 1 as [|l ls Hl _ IH]; [done|]. cbn [omap list_omap].
  apply strip_empty_iff in Hl. by destruct (decide (strip l = "")).
Qed.

(** The lines of a string of white space are blank. *)
Lemma splitlines_forall q s :
  str_forall q s = true → Forall (λ l, str_forall q l = true) (splitlines s).
Proof.
  remember (String.length s) as n eqn:Hn.
  assert (String.length s ≤ n) as Hle by lia. clear Hn.
  revert s Hle. induction n as [|n IH]; intros [|c s] Hle; simpl in Hle;
    try lia; try (intros _; by constructor).
  intros [Hc Hs]%andb_true_iff. rewrite splitlines_eq.
  destruct (is_linebreak c).
  - destruct s as [|c' s'].
    + by repeat constructor.
    + destruct (Ascii.eqb c "013" && Ascii.eqb c' "010").
      * constructor; [done|]. simpl in Hs. apply andb_true_iff in Hs as [_ Hs].
        apply IH; [simpl in Hle; lia|done].
      * constructor; [done|]. apply IH; [lia|done].
  - pose proof (IH s ltac:(lia) Hs) as IHs.
    destruct (splitlines s) as [|l ls].
    + constructor; [|done]. simpl. by rewrite Hc.
    + inversion_clear IHs as [|? ? Hl Hls]. constructor; [|done].
      simpl. by rewrite Hc, Hl.
Qed.

(** White space at the start of a transcript adds no non-blank line and
    nothing to the first one. *)
Lemma keep_lines_space c s :
  is_space c = true →
  keep_lines (splitlines (String c s)) = keep_lines (splitlines s).
Proof.
  intros Hc. rewrite splitlines_eq. destruct (is_linebreak c).
  - destruct s as [|c' s']; [done|].
    destruct (Ascii.eqb c "013" && Ascii.eqb c' "010") eqn:He; [|done].
    apply andb_true_iff in He as [_ ->%Ascii.eqb_eq].
    change (keep_lines (splitlines s')
            = keep_lines (splitlines (String "010" s'))).
    rewrite splitlines_eq. by destruct s'.
  - assert (∀ l, strip (String c l) = strip l) as Hl.
    { intros l. unfold strip, lstrip. cbn [str_drop_while]. by rewrite Hc. }
    destruct (splitlines s) as [|l ls]; cbn [omap list_omap]; by rewrite Hl.
Qed.

Lemma keep_lines_lstrip s :
  keep_lines (splitlines (lstrip s)) = keep_lines (splitlines s).
Proof.
  induction s as [|c s IH]; [done|]. unfold lstrip in *.
  cbn [str_drop_while]. destruct (is_space c) eqn:Hc; [|done].
  by rewrite IH, keep_lines_space.
Qed.

(** White space at the end of a transcript adds white space to its last
    line and blank lines after it. *)
Lemma splitlines_app_spaces ws x :
  str_forall is_space ws = true →
  (splitlines x = []
   ∧ Forall (λ l, is_blank l = true) (splitlines (x +:+ ws)))
  ∨ ∃ l w r1 r2,
      splitlines (x +:+ ws) = (l +:+ w) :: r1 ∧ splitlines x = l :: r2
      ∧ is_blank w = true ∧ keep_lines r1 = keep_lines r2.
Proof.
  intros Hws.
  assert (∀ L1 L2 : list string,
            (L2 = [] ∧ Forall (λ l, is_blank l = true) L1)
            ∨ (∃ l w r1 r2, L1 = (l +:+ w) :: r1 ∧ L2 = l :: r2
                 ∧ is_blank w = true ∧ keep_lines r1 = keep_lines r2) →
            keep_lines L1 = keep_lines L2) as Hkeep.
  { intros L1 L2 [[-> H]|(l & w & r1 & r2 & -> & -> & Hw & Hr)].
    - by apply keep_lines_blank.
    - cbn [omap list_omap].
      pose proof (strip_outer "" l w eq_refl Hw) as Hl.
      change ("" +:+ l +:+ w) with (l +:+ w) in Hl. by rewrite Hl, Hr. }
  remember (String.length x) as n eqn:Hn.
  assert (String.length x ≤ n) as Hle by lia. clear Hn.
  revert x Hle. induction n as [|n IH]; intros [|c x] Hle; simpl in Hle;
    try lia; try (left; split; [done|by apply splitlines_forall]).
  right. rewrite str_app_cons, !splitlines_eq.
  destruct (is_linebreak c) eqn:Hc.
  - destruct x as [|c' x'].
    + change ("" +:+ ws) with ws. destruct ws as [|c' ws'].
      * by exists "", "", [], [].
      * assert (keep_lines (splitlines (String c' ws')) = []
                ∧ keep_lines (splitlines ws') = []) as [H1 H2].
        { simpl in Hws. apply andb_true_iff in Hws as [? ?].
          split; apply keep_lines_blank, splitlines_forall; [|done].
          simpl. by apply andb_true_iff. }
        destruct (Ascii.eqb c "013" && Ascii.eqb c' "010").
        -- by exists "", "", (splitlines ws'), [].
        -- by exists "", "", (splitlines (String c' ws')), [].
    + rewrite str_app_cons.
      destruct (Ascii.eqb c "013" && Ascii.eqb c' "010").
      * exists "", "", (splitlines (x' +:+ ws)), (splitlines x').
        repeat split. apply Hkeep, IH. simpl in Hle. lia.
      * exists "", "", (splitlines (String c' x' +:+ ws)),
          (splitlines (String c' x')).
        repeat split. apply Hkeep, IH. lia.
  - destruct (IH x ltac:(lia)) as [[H2 H1]|(l & w & r1 & r2 & H1 & H2 & Hw & Hr)];
      rewrite H2.
    + destruct (splitlines (x +:+ ws)) as [|l1 r1].
      * by exists (String c ""), "", [], [].
      * inversion_clear H1 as [|? ? Hl1 Hr1].
        exists (String c ""), l1, r1, []. repeat split; [done|].
        by apply keep_lines_blank.
    + rewrite H1. by exists (String c l), w, r1, r2.
Qed.

Lemma keep_lines_rstrip s :
  keep_lines (splitlines (rstrip s)) = keep_lines (splitlines s).
Proof.
  destruct (rstrip_split s) as (ws & Hs & Hws). rewrite Hs at 2.
  destruct (splitlines_app_spaces ws (rstrip s) Hws)
    as [[-> H]|(l & w & r1 & r2 & -> & -> & Hw & Hr)].
  - symmetry. by apply keep_lines_blank.
  - cbn [omap list_omap].
    pose proof (strip_outer "" l w eq_refl Hw) as Hl.
    change ("" +:+ l +:+ w) with (l +:+ w) in Hl. by rewrite Hl, Hr.
Qed.

(** The lines that the parser reads are the non-blank lines of the
    transcript: stripping the transcript first changes none of them. *)
Lemma transcript_lines_nonblank transcript :
  transcript_lines transcript = nonblank_lines transcript.
Proof.
  unfold transcript_lines, nonblank_lines.
  change (strip transcript) with (rstrip (lstrip transcript)).
  by rewrite keep_lines_rstrip, keep_lines_lstrip, keep_lines_filter.
Qed.

(** X18. Stripping removes white space at the two ends of a string and
    nothing else: the string is white space, its stripped text, and white
    space again, and the stripped text neither begins nor ends with a
    white space character. *)
Theorem strip_ends (l : string) :
  (∃ ws1 ws2, l = ws1 +:+ strip l +:+ ws2
              ∧ is_blank ws1 = true ∧ is_blank ws2 = true)
  ∧ (∀ c s, strip l = String c s → is_space c = false)
  ∧ (∀ x c, strip l = x +:+ String c "" → is_space c = false).
Proof.
  pose proof (stripped_ends (strip l) (strip_idemp l)) as [Hl Hr].
  repeat split.
  - destruct (str_drop_while_split is_space l) as (ws1 & H1 & Hws1).
    destruct (rstrip_split (lstrip l)) as (ws2 & H2 & Hws2).
    exists ws1, ws2. split; [|done]. fold (lstrip l) in H1.
    by rewrite H2 in H1 at 1.
  - intros c s H. rewrite H in Hl. unfold lstrip in Hl.
    cbn [str_drop_while] in Hl. destruct (is_space c) eqn:Hc; [|done].
    destruct (str_drop_while_split is_space s) as (run & Hs & _).
    apply (f_equal String.length) in Hs. rewrite Hl, str_length_app in Hs.
    simpl in Hs. lia.
  - intros x c H. rewrite H in Hr. destruct (is_space c) eqn:Hc; [|done].
    rewrite rstrip_app_spaces in Hr by (simpl; by rewrite Hc).
    destruct (rstrip_split x) as (ws & Hx & _).
    apply (f_equal String.length) in Hx. rewrite Hr, !str_length_app in Hx.
    simpl in Hx. lia.
Qed.

(** ** Lines and their turns *)

Lemma has_label_cases line : has_label line ∨ unlabelled line.
Proof.
  destruct (re_match _AGENT_PREFIX line) eqn:Ha.
  { left. rewrite re_match_agent in Ha.
    destruct (alias_match_shape agent_aliases line)
      as (lbl & ws & c & rest & ? & Hl & ? & ?); [by eexists|].
    exists lbl, ws, c, rest. unfold recognized_label. by rewrite Hl. }
  destruct (re_match _CUSTOMER_PREFIX line) eqn:Hc.
  { left. rewrite re_match_customer in Hc.
    destruct (alias_match_shape customer_aliases line)
      as (lbl & ws & c & rest & ? & Hl & ? & ?); [by eexists|].
    exists lbl, ws, c, rest. unfold recognized_label. rewrite Hl.
    by rewrite orb_true_r. }
  destruct (re_match _SPEAKER_PREFIX line) eqn:Hs.
  { left. rewrite re_match_speaker in Hs.
    apply speaker_match_inv in Hs as (lbl & ws & c & rest & ? & Hl & ? & ?).
    exists lbl, ws, c, rest. unfold recognized_label. rewrite Hl.
    by rewrite orb_true_r. }
  right. by apply unlabelled_no_pattern.
Qed.

(** However a labelled line is read as label, separator and remainder, the
    parser classifies it by that label and keeps the stripped remainder. *)
Lemma labelled_line_turn lang i lbl ws c rest :
  recognized_label lbl = true →
  str_forall is_space ws = true → is_sep c = true →
  ∃ spk r, classify i (labelled_line lbl ws c rest) = (spk, r, strip rest)
           ∧ labelled_turn lang lbl (strip rest)
               (text_turn lang spk r (strip rest)).
Proof.
  intros Hl Hws Hc. unfold recognized_label in Hl.
  apply orb_true_iff in Hl as [[Hl|Hl]%orb_true_iff|Hl].
  - exists "AGENT", agent. split; [by apply classify_agent|by left].
  - exists "CUSTOMER", customer.
    split; [by apply classify_customer|right; by left].
  - eexists _, _. split; [by apply classify_speaker|right; by right].
Qed.

(** The text that the parser keeps of a line is the text that the line
    is left with once its prefix is removed. *)
Lemma prefix_stripped_text line text :
  prefix_stripped line text ↔ line_text line = text.
Proof.
  unfold line_text. split.
  - intros [(lbl & ws & c & rest & -> & Hl & Hws & Hc & ->)|[Hun ->]].
    + destruct (labelled_line_turn "" 0 lbl ws c rest Hl Hws Hc)
        as (spk & r & Hcl & _).
      by rewrite Hcl.
    + by rewrite (classify_plain 0 line Hun).
  - intros <-.
    destruct (has_label_cases line)
      as [(lbl & ws & c & rest & -> & Hl & Hws & Hc)|Hun].
    + destruct (labelled_line_turn "" 0 lbl ws c rest Hl Hws Hc)
        as (spk & r & Hcl & _).
      rewrite Hcl. left. by exists lbl, ws, c, rest.
    + rewrite (classify_plain 0 line Hun). by right.
Qed.

Lemma yields_text_iff line : yields_text line ↔ line_text line ≠ "".
Proof.
  split.
  - by intros (text & <-%prefix_stripped_text & Hne).
  - intros Hne. exists (line_text line). split; [|done].
    by apply prefix_stripped_text.
Qed.

Lemma turn_of_line_text lang i line t :
  turn_of_line lang i line t → prefix_stripped line (original_text t).
Proof.
  intros [(lbl & ws & c & rest & -> & Hws & Hc & Ht)|[Hun ->]]; [|by right].
  left. exists lbl, ws, c, rest. unfold recognized_label.
  destruct Ht as [[Hl ->]|[[Hl ->]|[Hl ->]]]; rewrite Hl;
    by rewrite ?orb_true_r.
Qed.

(** One round of the loop against the specification of a line. *)
Lemma line_turn_spec lang i line :
  (prefix_stripped line "" ∧ line_turn lang i line = None)
  ∨ (∃ t, line_turn lang i line = Some t
          ∧ turn_of_line lang i line t ∧ original_text t ≠ "").
Proof.
  destruct (has_label_cases line)
    as [(lbl & ws & c & rest & -> & Hl & Hws & Hc)|Hun].
  - destruct (labelled_line_turn lang i lbl ws c rest Hl Hws Hc)
      as (spk & r & Hcl & Ht).
    rewrite (line_turn_classify _ _ _ _ _ _ Hcl).
    destruct (decide (strip rest = "")) as [He|Hr].
    + left. split; [|done]. left. by exists lbl, ws, c, rest.
    + right. eexists. split; [done|]. split; [|done].
      left. by exists lbl, ws, c, rest.
  - unfold line_turn. rewrite (classify_plain i line Hun).
    destruct (decide (line = "")) as [He|Hne].
    + left. split; [|done]. by right.
    + right. exists (plain_turn lang i line). split; [|split; [by right|done]].
      unfold plain_turn. by destruct (i mod 2 =? 0).
Qed.

Lemma parsed_lines lang lines i :
  parsed lang i lines (omap id (imap (λ j, line_turn lang (i + j)) lines)).
Proof.
  revert i. induction lines as [|line lines IH]; intros i; [constructor|].
  cbn [imap omap list_omap]. rewrite Nat.add_0_r.
  assert (imap ((λ j, line_turn lang (i + j)) ∘ S) lines
          = imap (λ j, line_turn lang (S i + j)) lines) as ->.
  { apply imap_ext. intros j x _. simpl. f_equal. lia. }
  destruct (line_turn_spec lang i line) as [[Ho ->]|(t & -> & Ht & Hne)].
  - by apply parsed_drop.
  - by apply parsed_keep.
Qed.

Lemma parsed_count lang i lines turns :
  parsed lang i lines turns → count_where yields_text lines (length turns).
Proof.
  induction 1 as [i|i line lines turns Ho _ IH|i line lines t turns Ht Hne _ IH].
  - constructor.
  - apply count_no; [|done].
    intros (text & Htext%prefix_stripped_text & Hne).
    apply prefix_stripped_text in Ho. congruence.
  - apply count_yes; [|done]. exists (original_text t).
    split; [by apply (turn_of_line_text lang i)|done].
Qed.

Lemma count_where_unique {A} (P : A → Prop) (l : list A) n m :
  count_where P l n → count_where P l m → n = m.
Proof.
  intros Hn. revert m.
  induction Hn as [|x l n HP _ IH|x l n HP _ IH]; intros m Hm;
    inversion Hm; subst; try done.
  - f_equal. by apply IH.
  - by apply IH.
Qed.

(** C5. The lines that the parser numbers are the non-blank lines of the
    transcript, each without the white space at its ends: blank lines are
    gone before the positions are counted.  An unlabelled line at position
    [i] among them (lines dropped later for their empty text still count)
    gives an AGENT turn when [i] is even and a CUSTOMER turn when it is
    odd, with the whole line as text; a transcript with no labelled line
    gives exactly these turns, one per non-blank line. *)
Theorem unlabelled_lines_alternate (transcript lang : string) :
  transcript_lines transcript = nonblank_lines transcript
  ∧ (∀ i line, nonblank_lines transcript !! i = Some line → unlabelled line →
       line_turn lang i line = Some (plain_turn lang i line)
       ∧ plain_turn lang i line ∈ normalize_from_text transcript lang)
  ∧ ((∀ line, line ∈ nonblank_lines transcript → unlabelled line) →
     normalize_from_text transcript lang
     = imap (plain_turn lang) (nonblank_lines transcript)).
Proof.
  pose proof (transcript_lines_nonblank transcript) as Hlines.
  split; [done|].
  assert (∀ i line, nonblank_lines transcript !! i = Some line →
            unlabelled line →
            line_turn lang i line = Some (plain_turn lang i line)) as Hline.
  { intros i line Hi Hun. apply line_turn_plain; [done|].
    apply (transcript_lines_elem transcript). rewrite Hlines.
    apply list_elem_of_lookup. eauto. }
  split.
  - intros i line Hi Hun. split; [by apply Hline|].
    apply normalize_from_text_elem. exists i, line. rewrite Hlines.
    split; [done|by apply Hline].
  - intros Hall. rewrite normalize_from_text_omap, Hlines.
    apply omap_imap_Some.
    intros i line Hi. apply Hline; [done|]. apply Hall, list_elem_of_lookup. eauto.
Qed.

Lemma unlabelled_lines_alternate_witness :
  normalize_from_text plain_transcript "en"
  = imap (plain_turn "en") ["good morning"; "hello there"; "how can I help"].
Proof.
  apply (proj2 (proj2 (unlabelled_lines_alternate plain_transcript "en"))).
  intros line Hline. vm_compute in Hline.
  repeat (apply elem_of_cons in Hline as [->|Hline];
            [apply unlabelled_no_pattern; by vm_compute|]).
  by apply elem_of_nil in Hline.
Defined.

(** A blank line between two lines takes no position, and the white space
    around a line is not part of its text. *)
Example spaced_transcript_turns :
  nonblank_lines spaced_transcript = ["a"; "b"]
  ∧ normalize_from_text spaced_transcript "en"
    = [plain_turn "en" 0 "a"; plain_turn "en" 1 "b"].
Proof. by vm_compute. Qed.

(** C8. The dialogue rendered from the turns of a transcript splits into
    as many lines as the transcript has non-blank lines that yield text,
    that is, lines whose text is not empty once a recognized label prefix
    is removed and the white space at the ends is stripped; and that
    number is the only such count. *)
Theorem dialogue_line_count (transcript lang : string) :
  count_where yields_text (nonblank_lines transcript)
    (length (splitlines
               (turns_to_dialogue_string
                  (normalize_from_text transcript lang))))
  ∧ ∀ n, count_where yields_text (nonblank_lines transcript) n →
         n = length (splitlines
                       (turns_to_dialogue_string
                          (normalize_from_text transcript lang))).
Proof.
  assert (count_where yields_text (nonblank_lines transcript)
            (length (splitlines
                       (turns_to_dialogue_string
                          (normalize_from_text transcript lang))))) as Hcount.
  { rewrite turns_to_dialogue_string_join, splitlines_join.
    - rewrite length_fmap, normalize_from_text_omap, transcript_lines_nonblank.
      apply (parsed_count lang 0),
        (parsed_lines lang (nonblank_lines transcript) 0).
    - intros l (t & -> & Ht)%list_elem_of_fmap.
      by apply (text_dialogue_line transcript lang). }
  split; [done|]. intros n Hn. by apply (count_where_unique _ _ _ _ Hn).
Qed.

(** A line that is nothing but a label yields no text and gives no line
    of the dialogue. *)
Example dropped_line_dialogue :
  nonblank_lines dropped_line_transcript = ["Agent:"; "hello"; "goodbye"]
  ∧ prefix_stripped "Agent:" ""
  ∧ splitlines (turns_to_dialogue_string
                  (normalize_from_text dropped_line_transcript "en"))
    = ["Customer: hello"; "Agent: goodbye"].
Proof.
  split; [by vm_compute|]. split; [|by vm_compute].
  left. by exists "Agent", "", ":"%char, "".
Qed.

(** X9. The turns of a transcript are, in order, the turns that the
    specification gives the non-blank lines that yield text: a labelled
    line gives the turn of its label with the stripped remainder as text,
    an unlabelled line the turn of its position among the non-blank
    lines, and a line whose text is empty gives no turn but keeps its
    position. *)
Theorem normalize_from_text_parsed (transcript lang : string) :
  parsed lang 0 (nonblank_lines transcript)
    (normalize_from_text transcript lang).
Proof.
  rewrite normalize_from_text_omap, transcript_lines_nonblank.
  apply (parsed_lines lang (nonblank_lines transcript) 0).
Qed.

(** *** Speaker identifiers *)

Lemma str_map_length f s : String.length (str_map f s) = String.length s.
Proof. induction s as [|c s IH]; [done|]. simpl. by rewrite IH. Qed.

Lemma diarized_upper_long lbl :
  is_diarized_label lbl = true → 8 < String.length (str_upper lbl).
Proof.
  intros (p & d & ds & -> & Hp & _)%is_diarized_elim.
  apply (f_equal String.length) in Hp. unfold str_upper, str_lower in *.
  rewrite str_map_length in *. rewrite str_length_app. simpl in *. lia.
Qed.

(** X11. A turn of the text path is an agent turn exactly when its
    speaker identifier is AGENT or SPEAKER_00, and a customer turn
    exactly when it is neither. *)
Theorem text_turn_speaker (transcript lang : string) (t : ConversationTurn) :
  t ∈ normalize_from_text transcript lang →
  (role t = agent ↔ speaker_id t = "AGENT" ∨ speaker_id t = "SPEAKER_00")
  ∧ (role t = customer
     ↔ speaker_id t ≠ "AGENT" ∧ speaker_id t ≠ "SPEAKER_00").
Proof.
  intros (i & line & Hi & Ht)%normalize_from_text_elem.
  destruct (line_turn_spec lang i line)
    as [[_ H]|(t' & H & Hspec & _)]; [congruence|].
  rewrite Ht in H. injection H as <-.
  destruct Hspec
    as [(lbl & ws & c & rest & _ & _ & _ & [[_ ->]|[[_ ->]|[Hl ->]]])|[_ ->]];
    cbn [role speaker_id text_turn plain_turn].
  - repeat split; try done; [by left|by intros [[] _]].
  - repeat split; try done. by intros [|].
  - pose proof (diarized_upper_long lbl Hl) as Hlong.
    assert (str_upper lbl ≠ "AGENT") as Ha.
    { intros E. rewrite E in Hlong. simpl in Hlong. lia. }
    destruct (decide (str_upper lbl = "SPEAKER_00")) as [He|Hn].
    + repeat split; try done; [by right|by intros [_ []]].
    + repeat split; try done. by intros [|].
  - destruct (i mod 2 =? 0).
    + repeat split; try done; [by left|by intros [[] _]].
    + repeat split; try done. by intros [|].
Qed.

Lemma text_turn_speaker_witness :
  (customer = agent ↔ "SPEAKER_02" = "AGENT" ∨ "SPEAKER_02" = "SPEAKER_00")
  ∧ (customer = customer
     ↔ "SPEAKER_02" ≠ "AGENT" ∧ "SPEAKER_02" ≠ "SPEAKER_00").
Proof.
  apply (text_turn_speaker diarized_transcript "en"
           (text_turn "en" "SPEAKER_02" customer "hi")).
  vm_compute. in_list.
Defined.
